(** * sse-stream-parser: a shallow embedding of the SSE parsing pipeline
      and of its consumption adapter.

    The development follows [src/index.ts]: the string primitives the code
    calls ([split], [trim], [indexOf], [includes], [substring]), the two
    transform stages [splitStream] and [splitEventPart], and the three
    consumers attached to the stream by [SseStreamParser] (the async
    iterator, [subscribe] and [collectAll]). *)

From Equations Require Import Equations.
From Stdlib Require Import String Ascii List Arith NArith ZArith Lia Bool Sorted
  Permutation.
Import ListNotations.

Set Implicit Arguments.
Set Warnings "-register-all".

(** ** JavaScript strings

    A JavaScript string is a finite sequence of UTF-16 code units.  The
    methods below are the ones of [String.prototype] that the parser uses,
    with the behaviour ECMA-262 gives them on string arguments. *)

Module JsString.

Definition code_unit := N.
Definition t := list code_unit.

(** Literals of the development are written as Rocq strings. *)
Definition js (s : string) : t := map N_of_ascii (list_ascii_of_string s).

Definition eqb (a b : t) : bool :=
  if list_eq_dec N.eq_dec a b then true else false.
Arguments eqb : simpl never.

(** [WhiteSpace] and [LineTerminator] code points: what [trim] strips. *)
Definition isWhiteSpace (c : code_unit) : bool :=
  ((9 <=? c) && (c <=? 13) || (c =? 32) || (c =? 160) || (c =? 5760)
   || (8192 <=? c) && (c <=? 8202) || (c =? 8232) || (c =? 8233)
   || (c =? 8239) || (c =? 8287) || (c =? 12288) || (c =? 65279))%N.

Fixpoint trimStart (s : t) : t :=
  match s with
  | [] => []
  | c :: s' => if isWhiteSpace c then trimStart s' else s
  end.

Definition trimEnd (s : t) : t := rev (trimStart (rev s)).

Definition trim (s : t) : t := trimEnd (trimStart s).

Fixpoint startsWith (p s : t) : bool :=
  match p, s with
  | [], _ => true
  | _ :: _, [] => false
  | a :: p', b :: s' => (a =? b)%N && startsWith p' s'
  end.

(** [indexOf]: position of the first occurrence, [None] for JavaScript's -1. *)
Fixpoint indexOf (p s : t) : option nat :=
  if startsWith p s then Some 0
  else match s with
       | [] => None
       | _ :: s' => option_map S (indexOf p s')
       end.

Definition includes (p s : t) : bool :=
  match indexOf p s with Some _ => true | None => false end.

(** [s.substring(a, b)] with both indices clamped to the length and swapped
    when out of order; [s.substring(a)] runs to the end of the string. *)
Definition substring (s : t) (a b : nat) : t :=
  let a' := Nat.min a (length s) in
  let b' := Nat.min b (length s) in
  firstn (Nat.max a' b' - Nat.min a' b') (skipn (Nat.min a' b') s).

Definition substringFrom (s : t) (a : nat) : t := skipn a s.

Lemma startsWith_length p s :
  startsWith p s = true -> length p <= length s.
Proof.
  revert s. induction p as [|a p IH]; intros [|b s]; simpl;
    try discriminate; try lia.
  intros H. apply andb_prop in H as [_ H]. apply IH in H. lia.
Qed.

Lemma indexOf_bound p s i :
  indexOf p s = Some i -> i + length p <= length s.
Proof.
  revert i. induction s as [|c s IH]; intros i; simpl.
  - destruct p; simpl; [intros [= <-]; simpl; lia | discriminate].
  - destruct (startsWith p (c :: s)) eqn:E.
    + intros [= <-]. apply startsWith_length in E. simpl in *. lia.
    + destruct (indexOf p s) as [j|]; simpl; [|discriminate].
      intros [= <-]. specialize (IH j eq_refl). lia.
Qed.

Definition inspect {A : Type} (a : A) : {b : A | a = b} := exist _ a eq_refl.

(** [s.split(sep)] for a string separator: the pieces between the successive
    leftmost occurrences of [sep], the search resuming after each
    occurrence.  With the empty separator the string is cut into its code
    units.  [splitAt c sep' s] is the loop for the separator [c :: sep'],
    which is not empty. *)
Equations? splitAt (c : code_unit) (sep' : t) (s : t) : list t
  by wf (length s) lt :=
  splitAt c sep' s with inspect (indexOf (c :: sep') s) := {
    | exist _ None _ => [s];
    | exist _ (Some i) Hi =>
        firstn i s :: splitAt c sep' (skipn (i + length (c :: sep')) s) }.
Proof.
  apply indexOf_bound in Hi. rewrite length_skipn. simpl in *. lia.
Qed.

Definition split (sep s : t) : list t :=
  match sep with
  | [] => map (fun c => [c]) s
  | c :: sep' => splitAt c sep' s
  end.

End JsString.

Import JsString.

(** ** Plain objects used as maps

    [sseObject] is created by the literal [{}] and filled by
    [sseObject[key] = value].  An object of that kind keeps its own
    properties in creation order; assigning to an existing key replaces the
    value in place; assigning a string to [__proto__] runs the setter
    inherited from [Object.prototype], which ignores a value that is neither
    an object nor null and creates no property.  [Object.keys] lists the keys
    that are array indices (canonical decimal numerals up to 2^32 - 2) first,
    in ascending numeric order, and then the other keys in creation order. *)

Module JsObject.

Section Props.
Variable V : Type.

Definition t := list (JsString.t * V).

Definition empty : t := [].

Fixpoint get (k : JsString.t) (o : t) : option V :=
  match o with
  | [] => None
  | (k', v) :: o' => if JsString.eqb k k' then Some v else get k o'
  end.

Definition has (k : JsString.t) (o : t) : bool :=
  match get k o with Some _ => true | None => false end.

Fixpoint replace (k : JsString.t) (v : V) (o : t) : t :=
  match o with
  | [] => []
  | (k', v') :: o' =>
      if JsString.eqb k k' then (k', v) :: o' else (k', v') :: replace k v o'
  end.

Definition proto : JsString.t := js "__proto__".

(** [o[k] = v] for a value [v] that is not an object (a string, here). *)
Definition set (k : JsString.t) (v : V) (o : t) : t :=
  if JsString.eqb k proto then o
  else if has k o then replace k v o
  else o ++ [(k, v)].

Definition isDigit (c : code_unit) : bool := ((48 <=? c) && (c <=? 57))%N.

Fixpoint digitsValue (acc : N) (s : JsString.t) : option N :=
  match s with
  | [] => Some acc
  | c :: s' =>
      if isDigit c then digitsValue (acc * 10 + (c - 48))%N s' else None
  end.

(** The array index a key denotes, if it is one. *)
Definition toIndex (k : JsString.t) : option N :=
  match k with
  | [] => None
  | c :: k' =>
      if (c =? 48)%N && negb (Nat.eqb (length k') 0) then None
      else match digitsValue 0 k with
           | Some n => if (n <=? 4294967294)%N then Some n else None
           | None => None
           end
  end.

Definition isIndex (k : JsString.t) : bool :=
  match toIndex k with Some _ => true | None => false end.

Fixpoint insertIndex (e : N * JsString.t) (l : list (N * JsString.t)) :=
  match l with
  | [] => [e]
  | e' :: l' =>
      if (fst e <=? fst e')%N then e :: l else e' :: insertIndex e l'
  end.

Fixpoint indexKeys (ks : list JsString.t) : list (N * JsString.t) :=
  match ks with
  | [] => []
  | k :: ks' =>
      match toIndex k with
      | Some n => insertIndex (n, k) (indexKeys ks')
      | None => indexKeys ks'
      end
  end.

(** [Object.keys(o)]. *)
Definition keys (o : t) : list JsString.t :=
  map snd (indexKeys (map fst o))
  ++ filter (fun k => negb (isIndex k)) (map fst o).

End Props.

End JsObject.

(** ** The parser stages of [src/index.ts] *)

Definition DEFAULT_STREAM_SEPARATOR : JsString.t := [10; 10]%N.
Definition DEFAULT_PART_SEPARATOR : JsString.t := [10]%N.
Definition DEFAULT_KV_SEPARATOR : JsString.t := js ":".

(** [isValidString]: its argument is a string at every call site, so the
    [str == null] branch is never taken. *)
Definition isValidString (str : JsString.t) : bool :=
  negb (JsString.eqb (trim str) []).

(** A [TransformStream] is built from a transformer: a [transform] method
    run on every incoming chunk and a [flush] method run once when the
    writable side closes; each may enqueue any number of chunks.  The state
    is what the methods close over. *)
Record Transformer (I O : Type) := {
  state : Type;
  start : state;
  transform : state -> I -> state * list O;
  flush : state -> state * list O
}.

Section PipeThrough.
Variables (I O : Type) (T : Transformer I O).

(** The state and the chunks enqueued after the given chunks were written. *)
Fixpoint feed (s : state T) (chunks : list I) : state T * list O :=
  match chunks with
  | [] => (s, [])
  | c :: chunks' =>
      let (s1, out1) := transform T s c in
      let (s2, out2) := feed s1 chunks' in
      (s2, out1 ++ out2)
  end.

(** Everything read from the readable side when the source delivers
    [chunks] and then closes. *)
Definition pipeThrough (chunks : list I) : list O :=
  let (s, out) := feed (start T) chunks in
  out ++ snd (flush T s).

End PipeThrough.

(** [splitStream]: the state is the variable [buffer].  [split] with a
    separator that is not empty returns at least one piece, so
    [parts[parts.length - 1]] is always a string; [flush] tests and enqueues
    [buffer] and does not assign it. *)
Definition splitStream_transform (buffer streamChunk : JsString.t)
  : JsString.t * list JsString.t :=
  let buffer := buffer ++ streamChunk in
  let parts := split DEFAULT_STREAM_SEPARATOR buffer in
  (last parts [], filter isValidString (removelast parts)).

Definition splitStream_flush (buffer : JsString.t)
  : JsString.t * list JsString.t :=
  (buffer, if isValidString buffer then [buffer] else []).

Definition splitStream : Transformer JsString.t JsString.t :=
  {| state := JsString.t;
     start := [];
     transform := splitStream_transform;
     flush := splitStream_flush |}.

(** The field map [SSEOutput]; the parser stores trimmed strings in it. *)
Definition SSEOutput := JsObject.t JsString.t.

(** The console, as the list of the messages written to it. *)
Definition Console := list JsString.t.

Definition warning (line : JsString.t) : JsString.t :=
  line ++ js " , " ++ DEFAULT_KV_SEPARATOR ++ [34%N]
       ++ js " is not found in the sse line chunk!".

(** The body of the [for (const line of lines)] loop.  After the test with
    [includes] the call of [indexOf] finds the separator; on JavaScript's -1
    the key would be the empty string, which is skipped. *)
Definition parseLine (acc : SSEOutput * Console) (line : JsString.t)
  : SSEOutput * Console :=
  let (sseObject, console) := acc in
  if negb (includes DEFAULT_KV_SEPARATOR line) then
    (sseObject, console ++ [warning line])
  else
    match indexOf DEFAULT_KV_SEPARATOR line with
    | Some colonIndex =>
        let key := substring line 0 colonIndex in
        let value := trim (substringFrom line (colonIndex + 1)) in
        if isValidString key then (JsObject.set key value sseObject, console)
        else (sseObject, console)
    | None => (sseObject, console)
    end.

Definition parseLines (lines : list JsString.t) (console : Console)
  : SSEOutput * Console :=
  fold_left parseLine lines (JsObject.empty JsString.t, console).

Definition splitEventPart_transform (console : Console)
  (partChunk : JsString.t) : Console * list SSEOutput :=
  let lines := split DEFAULT_PART_SEPARATOR partChunk in
  let (sseObject, console) := parseLines lines console in
  if Nat.eqb (length (JsObject.keys sseObject)) 0 then (console, [])
  else (console, [sseObject]).

(** [splitEventPart] has no [flush]; its only state is the console. *)
Definition splitEventPart : Transformer JsString.t SSEOutput :=
  {| state := Console;
     start := [];
     transform := splitEventPart_transform;
     flush := fun console => (console, []) |}.

(** The default pipeline behind the text decoder:
    [.pipeThrough(splitStream()).pipeThrough(splitEventPart())]. *)
Definition parseStream (chunks : list JsString.t) : list SSEOutput :=
  pipeThrough splitEventPart (pipeThrough splitStream chunks).

(** A line feed, for the literals of the examples. *)
Definition nl : string := String (ascii_of_nat 10) EmptyString.

(** ** The consumption adapter of [SseStreamParser]

    The three consumers read the piped stream through a reader.  A stream is
    modelled by the results its successive [read()] calls settle with and by
    its lock; a [read()] on an exhausted [queue] stays pending.  [Output] is
    the type parameter of [SseStreamParser], [truthy] is JavaScript's
    [ToBoolean] on it, and [lockedError] is the [TypeError] that
    [getReader()] throws on a locked stream.  A value may be a thenable (a
    custom stage may enqueue promises): [awaitValue] is what [await] makes
    of a value, the value itself when it is not a thenable. *)

Section Adapter.

Variables (Output Err : Type).
Variable truthy : Output -> bool.
Variable lockedError : Err.

(** What [await value] comes to. *)
Inductive Awaited :=
| Resolved (value : Output)   (* the value, or what the thenable resolves to *)
| Rejects (error : Err)       (* the thenable rejects: [await] throws *)
| Never.                      (* the thenable never settles *)

Variable awaitValue : Output -> Awaited.

Inductive ReadResult :=
| ReadValue (value : Output)   (* resolves with { done: false, value } *)
| ReadDone                     (* resolves with { done: true } *)
| ReadError (error : Err).     (* rejects *)

Record Stream := { queue : list ReadResult; locked : bool }.

Definition withQueue (q : list ReadResult) (st : Stream) : Stream :=
  {| queue := q; locked := locked st |}.

Definition withLock (b : bool) (st : Stream) : Stream :=
  {| queue := queue st; locked := b |}.

(** *** [stream[Symbol.asyncIterator]]: the async generator *)

Inductive Generator := GenStart | GenSuspendedYield | GenCompleted.

Record Iterator := { generator : Generator; source : Stream }.

(** What one [next()] call settles with. *)
Inductive IterResult :=
| Yielded (value : Output)
| Completed
| Rejected (error : Err)
| Pending.

(** The [while (true)] loop from one resumption to the next [yield],
    [break] or exception.  In an async generator [yield value] awaits its
    operand: the consumer receives what the value resolves to, a rejection
    is thrown at the [yield], inside the [try], and a thenable that never
    settles blocks the generator for good (the value then stays at the head
    of the queue, so that every later [next()] stays pending as well). *)
Fixpoint iterLoop (q : list ReadResult) : IterResult * list ReadResult :=
  match q with
  | [] => (Pending, [])
  | ReadDone :: q' => (Completed, q')
  | ReadError e :: q' => (Rejected e, q')
  | ReadValue value :: q' =>
      if negb (truthy value) then iterLoop q'
      else match awaitValue value with
           | Resolved value' => (Yielded value', q')
           | Rejects e => (Rejected e, q')
           | Never => (Pending, q)
           end
  end.

Definition resume (st : Stream) : IterResult * Iterator :=
  let (r, q) := iterLoop (queue st) in
  match r with
  | Yielded _ | Pending =>
      (r, {| generator := GenSuspendedYield; source := withQueue q st |})
  | Completed | Rejected _ =>
      (* finally { reader.releaseLock() } *)
      (r, {| generator := GenCompleted;
             source := withLock false (withQueue q st) |})
  end.

Definition next (it : Iterator) : IterResult * Iterator :=
  match generator it with
  | GenCompleted => (Completed, it)
  | GenSuspendedYield => resume (source it)
  | GenStart =>
      if locked (source it)
      then (Rejected lockedError,
            {| generator := GenCompleted; source := source it |})
      else resume (withLock true (source it))
  end.

Definition asyncIterator (st : Stream) : Iterator :=
  {| generator := GenStart; source := st |}.

(** How a [for await (const value of stream)] loop that keeps every value
    ends, within a bound on the number of [next()] calls. *)
Inductive Outcome := Finished | Threw (error : Err) | Waiting | Unfinished.

Fixpoint forAwait (n : nat) (it : Iterator) : list Output * Outcome :=
  match n with
  | 0 => ([], Unfinished)
  | S n' =>
      match next it with
      | (Yielded value, it') =>
          let (values, o) := forAwait n' it' in (value :: values, o)
      | (Completed, _) => ([], Finished)
      | (Rejected e, _) => ([], Threw e)
      | (Pending, _) => ([], Waiting)
      end
  end.

(** *** [stream.subscribe]

    What the subscriber's functions do is left open: [callback] works on the
    state [U] of the subscriber, may call the cancellation function and may
    throw; [onComplete] is optional and may throw. *)

Inductive Event :=
| Read                    (* reader.read() is called *)
| Value (value : Output)  (* callback(value) is called *)
| Complete                (* onComplete() is called *)
| LogError (error : Err)  (* console.error('Error reading stream:', error) *)
| ReleaseLock             (* reader.releaseLock() is called *)
| Cancelled.              (* the function returned by subscribe is called *)

Record Reaction := { cancels : bool; throws : option Err }.

(** The promise of the async function started by [subscribe]. *)
Inductive Pump := Awaiting | Returned | Failed (error : Err).

Section Subscribe.

Variable U : Type.
Variable callback : Output -> U -> U * Reaction.
Variable onComplete : option (U -> U * option Err).

Record Subscription := {
  subscribing : bool;
  pump : Pump;
  stream : Stream;
  user : U;
  trace : list Event
}.

Definition emit (ev : Event) (s : Subscription) : Subscription :=
  {| subscribing := subscribing s; pump := pump s; stream := stream s;
     user := user s; trace := trace s ++ [ev] |}.

Definition withPump (p : Pump) (s : Subscription) : Subscription :=
  {| subscribing := subscribing s; pump := p; stream := stream s;
     user := user s; trace := trace s |}.

Definition withStream (st : Stream) (s : Subscription) : Subscription :=
  {| subscribing := subscribing s; pump := pump s; stream := st;
     user := user s; trace := trace s |}.

Definition withUser (u : U) (s : Subscription) : Subscription :=
  {| subscribing := subscribing s; pump := pump s; stream := stream s;
     user := u; trace := trace s |}.

(** The returned function: [subscribing = null]. *)
Definition cancel (s : Subscription) : Subscription :=
  emit Cancelled
    {| subscribing := false; pump := pump s; stream := stream s;
       user := user s; trace := trace s |}.

(** [onComplete?.()], with what it throws, if it does. *)
Definition complete (s : Subscription) : Subscription * option Err :=
  match onComplete with
  | None => (s, None)
  | Some f =>
      let s := emit Complete s in
      let (u, thrown) := f (user s) in (withUser u s, thrown)
  end.

(** [catch (error) { console.error(...); onComplete?.(); }] *)
Definition catchError (e : Err) (s : Subscription) : Subscription :=
  let (s, thrown) := complete (emit (LogError e) s) in
  match thrown with
  | None => withPump Returned s
  | Some e' => withPump (Failed e') s
  end.

(** [finally { reader.releaseLock(); }] *)
Definition releaseLock (s : Subscription) : Subscription :=
  emit ReleaseLock (withStream (withLock false (stream s)) s).

(** The test of [while (subscribing)], up to the [await reader.read()] of
    the next round or to the end of the function. *)
Definition loop (s : Subscription) : Subscription :=
  if subscribing s then withPump Awaiting (emit Read s)
  else withPump Returned (releaseLock s).

(** The call [stream.subscribe(callback, onComplete)]: the async function
    runs up to its first [await] before [subscribe] returns. *)
Definition subscribe (st : Stream) (u : U) : Subscription :=
  let s := {| subscribing := true; pump := Awaiting; stream := st;
              user := u; trace := [] |} in
  if locked st then catchError lockedError s
  else loop (withStream (withLock true st) s).

(** The awaited [read()] settles and the async function runs on to its next
    [await] or to its end. *)
Definition settle (s : Subscription) : Subscription :=
  match pump s, queue (stream s) with
  | Awaiting, r :: q =>
      let s := withStream (withQueue q (stream s)) s in
      match r with
      | ReadError e => catchError e (releaseLock s)
      | ReadDone =>
          let (s, thrown) := complete s in
          match thrown with
          | None => withPump Returned (releaseLock s)
          | Some e => catchError e (releaseLock s)
          end
      | ReadValue value =>
          if truthy value && subscribing s then
            let s := emit (Value value) s in
            let (u, reaction) := callback value (user s) in
            let s := withUser u s in
            let s := if cancels reaction then cancel s else s in
            match throws reaction with
            | None => loop s
            | Some e => catchError e (releaseLock s)
            end
          else loop s
      end
  | _, _ => s
  end.

(** What happens to a subscription from outside the async function. *)
Inductive Input := Settle | Cancel.

Definition step (s : Subscription) (i : Input) : Subscription :=
  match i with
  | Settle => settle s
  | Cancel => cancel s
  end.

Definition run (inputs : list Input) (s : Subscription) : Subscription :=
  fold_left step inputs s.

End Subscribe.

(** *** [stream.collectAll]

    The subscriber state is the array [values] and the promise returned by
    [collectAll].  The promise is resolved with the array itself, not with a
    copy: whoever awaits it sees [values] as it is when it looks. *)

Record Collector := { values : list Output; resolved : bool }.

(** [(value) => values.push(value)] *)
Definition pushValue (value : Output) (c : Collector) : Collector * Reaction :=
  ({| values := values c ++ [value]; resolved := resolved c |},
   {| cancels := false; throws := None |}).

(** [() => resolve(values)] *)
Definition resolveValues (c : Collector) : Collector * option Err :=
  ({| values := values c; resolved := true |}, None).

(** [this.subscribe((value) => values.push(value), () => resolve(values))];
    the callback first runs when a read settles, in [settle]. *)
Definition collectAll (st : Stream) : Subscription Collector :=
  subscribe (Some resolveValues) st {| values := []; resolved := false |}.

Definition promise (c : Collector) : option (list Output) :=
  if resolved c then Some (values c) else None.

(** The value of the promise of [collectAll] once [n] reads have settled. *)
Definition collected (n : nat) (st : Stream) : option (list Output) :=
  promise (user (run pushValue (Some resolveValues) (repeat Settle n)
                   (collectAll st))).

(** A source that delivers the given values and then ends. *)
Definition finiteSource (vs : list Output) : Stream :=
  {| queue := map ReadValue vs ++ [ReadDone]; locked := false |}.

End Adapter.

Arguments Resolved {Output Err} value.
Arguments Rejects {Output Err} error.
Arguments Never {Output Err}.
Arguments ReadValue {Output Err} value.
Arguments ReadDone {Output Err}.
Arguments ReadError {Output Err} error.
Arguments Yielded {Output Err} value.
Arguments Completed {Output Err}.
Arguments Rejected {Output Err} error.
Arguments Pending {Output Err}.
Arguments Finished {Err}.
Arguments Threw {Err} error.
Arguments Waiting {Err}.
Arguments Unfinished {Err}.
Arguments Read {Output Err}.
Arguments Value {Output Err} value.
Arguments Complete {Output Err}.
Arguments LogError {Output Err} error.
Arguments ReleaseLock {Output Err}.
Arguments Cancelled {Output Err}.
Arguments Awaiting {Err}.
Arguments Returned {Err}.
Arguments Failed {Err} error.

(** A small universe of output values, for the custom transform streams a
    caller may supply: enough of JavaScript's values to tell the falsy ones
    apart, and thenables, given by how they settle. *)
Inductive JsValue :=
| JsUndefined
| JsNull
| JsBoolean (b : bool)
| JsInteger (n : Z)           (* a Number with an integral value *)
| JsNaN
| JsStr (s : JsString.t)
| JsFields (o : SSEOutput)
| JsThenable (settles : Awaited JsValue JsValue).

Definition ToBoolean (v : JsValue) : bool :=
  match v with
  | JsUndefined | JsNull | JsNaN => false
  | JsBoolean b => b
  | JsInteger n => negb (Z.eqb n 0)
  | JsStr s => negb (JsString.eqb s [])
  | JsFields _ => true
  | JsThenable _ => true
  end.

(** [await v]: a thenable is followed to what it settles with, and a
    thenable it resolves with is followed in turn; any other value is
    itself. *)
Fixpoint awaitJs (v : JsValue) : Awaited JsValue JsValue :=
  match v with
  | JsThenable (Resolved v') => awaitJs v'
  | JsThenable (Rejects e) => Rejects e
  | JsThenable Never => Never
  | _ => Resolved v
  end.

(** ** Vocabulary of the statements

    The field a line contributes to the map, the fields of a block in the
    order of its lines, and the order in which keys are first met. *)

Definition fieldOf (line : JsString.t) : option (JsString.t * JsString.t) :=
  match indexOf DEFAULT_KV_SEPARATOR line with
  | Some colonIndex =>
      let key := firstn colonIndex line in
      if isValidString key
      then Some (key, trim (skipn (colonIndex + 1) line))
      else None
  | None => None
  end.

Definition fieldsOf (lines : list JsString.t) : list (JsString.t * JsString.t) :=
  flat_map (fun line => match fieldOf line with
                        | Some e => [e]
                        | None => []
                        end) lines.

Definition fields (block : JsString.t) : list (JsString.t * JsString.t) :=
  fieldsOf (split DEFAULT_PART_SEPARATOR block).

(** A text that neither starts nor ends with white space. *)
Definition trimmed (text : JsString.t) : Prop :=
  (forall c t, text = c :: t -> isWhiteSpace c = false)
  /\ (forall c t, text = t ++ [c] -> isWhiteSpace c = false).

(** What one line does to the map, and what a list of lines logs. *)
Definition addField (sseObject : SSEOutput) (line : JsString.t) : SSEOutput :=
  match fieldOf line with
  | Some (key, value) => JsObject.set key value sseObject
  | None => sseObject
  end.

Definition warningsOf (lines : list JsString.t) : Console :=
  flat_map (fun line => if includes DEFAULT_KV_SEPARATOR line then []
                        else [warning line]) lines.

(** What [splitEventPart] enqueues for a map. *)
Definition emitted (sseObject : SSEOutput) : list SSEOutput :=
  if Nat.eqb (length (JsObject.keys sseObject)) 0 then [] else [sseObject].

(** The map built from a list of fields, as the loop builds it. *)
Definition setField (sseObject : SSEOutput) (e : JsString.t * JsString.t)
  : SSEOutput :=
  JsObject.set (fst e) (snd e) sseObject.

Fixpoint firstOccurrences (ks : list JsString.t) : list JsString.t :=
  match ks with
  | [] => []
  | k :: ks' =>
      k :: filter (fun k' => negb (JsString.eqb k' k)) (firstOccurrences ks')
  end.

(** The value of the last entry for [k]. *)
Definition lastValue (k : JsString.t) (entries : list (JsString.t * JsString.t))
  : option JsString.t :=
  JsObject.get k (rev entries).

(** Keys that are stored at all: every key but [__proto__]. *)
Definition storedKey (k : JsString.t) : bool :=
  negb (JsString.eqb k (JsObject.proto)).

Definition ascending (idx : list (N * JsString.t)) : Prop :=
  Sorted.StronglySorted (fun a b => (fst a <= fst b)%N) idx.

(** [pieces.join(sep)] on an array of strings. *)
Fixpoint join (sep : JsString.t) (pieces : list JsString.t) : JsString.t :=
  match pieces with
  | [] => []
  | p :: ps =>
      match ps with
      | [] => p
      | _ :: _ => p ++ sep ++ join sep ps
      end
  end.

(** The field map of a block: its fields, assigned in order. *)
Definition parseBlock (block : JsString.t) : SSEOutput :=
  fold_left setField (fields block) (JsObject.empty JsString.t).

(** The text of a field and of a block on the wire. *)
Definition encodeField (e : JsString.t * JsString.t) : JsString.t :=
  fst e ++ DEFAULT_KV_SEPARATOR ++ snd e.

Definition encodeBlock (entries : list (JsString.t * JsString.t)) : JsString.t :=
  join DEFAULT_PART_SEPARATOR (map encodeField entries).

(** A field as the parser stores it: the key is not blank, holds no colon and
    no line feed and is not [__proto__]; the value is trimmed and holds no
    line feed. *)
Definition storedField (e : JsString.t * JsString.t) : Prop :=
  trim (fst e) <> []
  /\ ~ In 58%N (fst e) /\ ~ In 10%N (fst e)
  /\ fst e <> JsObject.proto
  /\ trim (snd e) = snd e /\ ~ In 10%N (snd e).

(** *** Reading a trace

    Events that deliver nothing and start no read; and a scan of a trace
    that fails on a callback call or a read after a cancellation. *)

Section TraceVocabulary.
Variables (Output Err U : Type).

Definition quietEvent (ev : Event Output Err) : bool :=
  match ev with
  | Value _ | Read => false
  | _ => true
  end.

Definition isComplete (ev : Event Output Err) : bool :=
  match ev with
  | Complete => true
  | _ => false
  end.

(** The values the callback was called with, and how often [onComplete]
    was called. *)
Definition delivered (tr : list (Event Output Err)) : list Output :=
  flat_map (fun ev => match ev with Value value => [value] | _ => [] end) tr.

Definition completions (tr : list (Event Output Err)) : nat :=
  length (filter isComplete tr).

Inductive Watch := Live | Quiet | Violated.

Definition watchStep (w : Watch) (ev : Event Output Err) : Watch :=
  match w with
  | Live => match ev with Cancelled => Quiet | _ => Live end
  | Quiet => if quietEvent ev then Quiet else Violated
  | Violated => Violated
  end.

Definition watch (tr : list (Event Output Err)) : Watch :=
  fold_left watchStep tr Live.

(** Invariants of a subscription.  The scan accepts the trace so far, and it
    has met no cancellation while [subscribing] is still true. *)
Definition cancelObserved (s : Subscription Output Err U) : Prop :=
  watch (trace s) <> Violated
  /\ (subscribing s = true -> watch (trace s) = Live).

(** While the loop is waiting for a read, [onComplete] has not been called. *)
Definition notCompleted (s : Subscription Output Err U) : Prop :=
  pump s = Awaiting -> completions (trace s) = 0.


End TraceVocabulary.

(** *** Reading the consumers

    The iterator after a number of [next()] calls, how a [for await] loop
    ends on what follows the values of a source, and the state of a
    subscriber after its callback has received some values. *)

Section ConsumerVocabulary.
Variables (Output Err U : Type).
Variable truthy : Output -> bool.
Variable lockedError : Err.
Variable awaitValue : Output -> Awaited Output Err.

Fixpoint advance (k : nat) (it : Iterator Output Err) : Iterator Output Err :=
  match k with
  | 0 => it
  | S k' => advance k' (snd (next truthy lockedError awaitValue it))
  end.


(** Values that are not thenables: [await] gives them back. *)
Definition plainValues (vs : list Output) : Prop :=
  Forall (fun value => awaitValue value = Resolved value) vs.

Definition ending (tail : list (ReadResult Output Err)) : Outcome Err :=
  match tail with
  | ReadDone :: _ => Finished
  | ReadError e :: _ => Threw e
  | _ => Waiting
  end.

Definition startsWithValue (tail : list (ReadResult Output Err)) : bool :=
  match tail with
  | ReadValue _ :: _ => true
  | _ => false
  end.

Definition received (callback : Output -> U -> U * Reaction Err)
  (vs : list Output) (u : U) : U :=
  fold_left (fun u value => fst (callback value u)) vs u.

(** A callback that returns without calling the cancellation function, and
    an [onComplete] that returns. *)
Definition plainCallback (callback : Output -> U -> U * Reaction Err) : Prop :=
  forall value u,
    snd (callback value u) = {| cancels := false; throws := None |}.

Definition plainComplete (onComplete : option (U -> U * option Err)) : Prop :=
  forall f u, onComplete = Some f -> snd (f u) = None.

(** The lock of the stream follows the async function of [subscribe]. *)
Definition lockFollowsPump (s : Subscription Output Err U) : Prop :=
  locked (stream s) = match pump s with Awaiting => true | _ => false end.

(** The lock of the stream follows the generator of the iterator. *)
Definition lockFollowsGenerator (it : Iterator Output Err) : Prop :=
  locked (source it) = match generator it with
                       | GenSuspendedYield => true
                       | _ => false
                       end.

End ConsumerVocabulary.

(** A subscriber for the examples: it keeps the values it is called with,
    never cancels and never throws. *)
Definition recordValue (value : JsValue) (seen : list JsValue)
  : list JsValue * Reaction JsValue :=
  (seen ++ [value], {| cancels := false; throws := None |}).

Definition noteComplete : option (list JsValue -> list JsValue * option JsValue) :=
  Some (fun seen => (seen, None)).

Definition typeError : JsValue := JsStr (js "TypeError").

(** A subscriber whose callback throws, and one whose [onComplete] throws. *)
Definition throwingCallback (value : JsValue) (seen : list JsValue)
  : list JsValue * Reaction JsValue :=
  (seen ++ [value], {| cancels := false; throws := Some (JsStr (js "bad")) |}).

Definition throwingComplete (seen : list JsValue)
  : list JsValue * option JsValue :=
  (seen, Some (JsStr (js "oops"))).

(** ** [SseStreamParser]

    The function checks its input, pipes it through the text decoder and
    through the custom stage, when one is given, or else through the two
    default stages, and attaches the consumers to the result.  The input is
    given here by the text chunks its bytes decode to, [None] standing for a
    value that is not a [ReadableStream]; the result is the stream the
    consumers read, which ends when the input does. *)
Definition notAStream : JsValue :=
  JsStr (js "The readableStream must be a ReadableStream instance").

Definition SseStreamParser
  (readableStream : option (list JsString.t))
  (transformStream : option (Transformer JsString.t JsValue))
  : JsValue + Stream JsValue JsValue :=
  match readableStream with
  | None => inl notAStream
  | Some textChunks =>
      inr (finiteSource JsValue
             match transformStream with
             | Some stage => pipeThrough stage textChunks
             | None => map JsFields (parseStream textChunks)
             end)
  end.

(** ** The model at work *)

Example split_ex :
  split (js "ab") (js "xabyabab") = [js "x"; js "y"; js ""; js ""].
Proof. vm_compute. reflexivity. Qed.

Example scenario :
  parseStream [js ("event: message" ++ nl ++ "da");
               js ("ta: hi" ++ nl ++ nl ++ "event: update" ++ nl ++ "data: ok" ++ nl ++ nl)]
  = [[(js "event", js "message"); (js "data", js "hi")];
     [(js "event", js "update"); (js "data", js "ok")]].
Proof. vm_compute. reflexivity. Qed.

Example keys_ex :
  map (@JsObject.keys _) (parseStream [js ("b:1" ++ nl ++ "1:2" ++ nl ++ "__proto__:3" ++ nl ++ "b:4")])
  = [[js "1"; js "b"]].
Proof. vm_compute. reflexivity. Qed.

(** ** Facts on the string primitives *)

Lemma splitAt_eq c sep' s :
  splitAt c sep' s =
  match indexOf (c :: sep') s with
  | None => [s]
  | Some i => firstn i s :: splitAt c sep' (skipn (i + length (c :: sep')) s)
  end.
Proof.
  funelim (splitAt c sep' s).
  - rewrite Hi. reflexivity.
  - match goal with E : indexOf _ _ = None |- _ => rewrite E end. reflexivity.
Qed.

Lemma splitAt_nonempty c sep' s : splitAt c sep' s <> [].
Proof.
  rewrite splitAt_eq. destruct (indexOf (c :: sep') s); discriminate.
Qed.

Lemma split_nonempty sep s : sep <> [] -> split sep s <> [].
Proof.
  destruct sep as [|c sep']; [congruence|]. intros _. apply splitAt_nonempty.
Qed.

Lemma startsWith_app p a b :
  startsWith p a = true -> startsWith p (a ++ b) = true.
Proof.
  revert a. induction p as [|x p IH]; intros [|y a]; simpl; try easy.
  intros H. apply andb_prop in H as [-> H]. simpl. auto.
Qed.

Lemma startsWith_app_inv p a b :
  startsWith p (a ++ b) = true -> length p <= length a ->
  startsWith p a = true.
Proof.
  revert a. induction p as [|x p IH]; intros [|y a]; simpl; try easy; try lia.
  intros H L. apply andb_prop in H as [-> H]. simpl. apply IH; [easy | lia].
Qed.

(** An occurrence found in a prefix is still the first one after more text
    has arrived. *)
Lemma indexOf_app p a b i :
  indexOf p a = Some i -> indexOf p (a ++ b) = Some i.
Proof.
  revert i. induction a as [|c a IH]; intros i.
  - simpl. destruct p; simpl; [|discriminate]. intros [= <-].
    destruct b; reflexivity.
  - cbn [indexOf app]. destruct (startsWith p (c :: a)) eqn:E.
    + intros [= <-]. change (c :: a ++ b) with ((c :: a) ++ b).
      rewrite (startsWith_app _ _ b E). reflexivity.
    + destruct (indexOf p a) as [j|] eqn:Ej; [|discriminate].
      intros [= <-]. rewrite (IH j eq_refl). simpl.
      destruct (startsWith p (c :: a ++ b)) eqn:E'; [|reflexivity].
      apply indexOf_bound in Ej.
      change (c :: a ++ b) with ((c :: a) ++ b) in E'.
      apply startsWith_app_inv in E'; [congruence | simpl; lia].
Qed.

Lemma removelast_cons (A : Type) (x : A) l :
  l <> [] -> removelast (x :: l) = x :: removelast l.
Proof. destruct l; [congruence | reflexivity]. Qed.

Lemma last_cons (A : Type) (x : A) l d :
  l <> [] -> last (x :: l) d = last l d.
Proof. destruct l; [congruence | reflexivity]. Qed.

Lemma last_append (A : Type) (l l' : list A) d :
  l' <> [] -> last (l ++ l') d = last l' d.
Proof.
  intros H. induction l as [|x l IH]; [reflexivity|].
  simpl app. rewrite last_cons; [exact IH | destruct l; simpl; congruence].
Qed.

(** Splitting a text that grew by [b]: the pieces already closed are
    unchanged and the search goes on in the last, open piece. *)
Lemma splitAt_app c sep' a b :
  splitAt c sep' (a ++ b) =
  removelast (splitAt c sep' a) ++ splitAt c sep' (last (splitAt c sep' a) [] ++ b).
Proof.
  funelim (splitAt c sep' a).
  - rewrite removelast_cons, last_cons by apply splitAt_nonempty.
    rewrite (splitAt_eq c sep' (s ++ b)), (indexOf_app _ _ b Hi).
    pose proof (indexOf_bound _ _ Hi) as L.
    rewrite firstn_app, skipn_app.
    replace (i - length s) with 0 by lia.
    replace (i + length (c :: sep') - length s) with 0 by lia.
    rewrite firstn_O, app_nil_r. simpl skipn at 2.
    simpl. f_equal. apply H.
  - reflexivity.
Qed.

Lemma split_app sep a b :
  sep <> [] ->
  split sep (a ++ b) =
  removelast (split sep a) ++ split sep (last (split sep a) [] ++ b).
Proof.
  destruct sep as [|c sep']; [congruence|]. intros _. apply splitAt_app.
Qed.

(** ** The splitter works on the cumulative text *)

Lemma stream_separator_nonempty : DEFAULT_STREAM_SEPARATOR <> [].
Proof. discriminate. Qed.

Lemma removelast_split_app a b :
  let sep := DEFAULT_STREAM_SEPARATOR in
  removelast (split sep (a ++ b)) =
  removelast (split sep a) ++ removelast (split sep (last (split sep a) [] ++ b)).
Proof.
  cbv zeta. rewrite (split_app a b stream_separator_nonempty).
  apply removelast_app, split_nonempty, stream_separator_nonempty.
Qed.

Lemma last_split_app a b :
  let sep := DEFAULT_STREAM_SEPARATOR in
  last (split sep (a ++ b)) [] = last (split sep (last (split sep a) [] ++ b)) [].
Proof.
  cbv zeta. rewrite (split_app a b stream_separator_nonempty).
  apply last_append, split_nonempty, stream_separator_nonempty.
Qed.

(** After at least one chunk, the state and the output of the splitter are
    those of one [transform] call on the concatenation of the chunks. *)
Lemma splitStream_feed buffer chunks :
  chunks <> [] ->
  feed splitStream buffer chunks =
  splitStream_transform buffer (concat chunks).
Proof.
  revert buffer. induction chunks as [|c cs IH]; [congruence|].
  intros buffer _. destruct cs as [|c' cs'].
  - simpl. rewrite !app_nil_r. reflexivity.
  - change (feed splitStream buffer (c :: c' :: cs')) with
      (let (s1, out1) := splitStream_transform buffer c in
       let (s2, out2) := feed splitStream s1 (c' :: cs') in (s2, out1 ++ out2)).
    unfold splitStream_transform at 1. rewrite IH by discriminate.
    unfold splitStream_transform.
    change (concat (c :: c' :: cs')) with (c ++ concat (c' :: cs')).
    rewrite (app_assoc buffer c).
    rewrite (last_split_app (buffer ++ c) (concat (c' :: cs'))).
    rewrite (removelast_split_app (buffer ++ c) (concat (c' :: cs'))).
    rewrite filter_app. reflexivity.
Qed.

Lemma pipeThrough_splitStream chunks :
  pipeThrough splitStream chunks = pipeThrough splitStream [concat chunks].
Proof.
  unfold pipeThrough. destruct chunks as [|c cs].
  - reflexivity.
  - rewrite !splitStream_feed by discriminate.
    simpl concat. rewrite app_nil_r. reflexivity.
Qed.

(** C1. Chunk-boundary independence: however a text is cut into an ordered
    sequence of chunks, the splitter followed by the field parser, with the
    final flush, emits the same sequence of field maps as for the text
    written as one chunk. *)
Theorem chunk_boundary_independence (text : JsString.t) (chunks : list JsString.t) :
  concat chunks = text -> parseStream chunks = parseStream [text].
Proof.
  intros <-. unfold parseStream. rewrite pipeThrough_splitStream. reflexivity.
Qed.

Lemma chunk_boundary_independence_witness :
  let chunks := [js ("event: message" ++ nl ++ "da"); js "ta: hi"; js nl;
                 js (nl ++ "event: update" ++ nl ++ "data: ok" ++ nl ++ nl)] in
  let text := js ("event: message" ++ nl ++ "data: hi" ++ nl ++ nl
                  ++ "event: update" ++ nl ++ "data: ok" ++ nl ++ nl) in
  concat chunks = text /\ parseStream chunks = parseStream [text].
Proof.
  split; [reflexivity | apply chunk_boundary_independence; reflexivity].
Defined.

(** ** Equality and trimming *)

Lemma eqb_eq a b : JsString.eqb a b = true <-> a = b.
Proof.
  unfold JsString.eqb. destruct (list_eq_dec N.eq_dec a b); split; congruence.
Qed.

Lemma eqb_neq a b : JsString.eqb a b = false <-> a <> b.
Proof.
  unfold JsString.eqb. destruct (list_eq_dec N.eq_dec a b); split; congruence.
Qed.

Lemma eqb_refl a : JsString.eqb a a = true.
Proof. apply eqb_eq. reflexivity. Qed.

Lemma isValidString_true s : isValidString s = true <-> trim s <> [].
Proof.
  unfold isValidString. rewrite negb_true_iff. apply eqb_neq.
Qed.

Lemma isValidString_false s : isValidString s = false <-> trim s = [].
Proof.
  unfold isValidString. rewrite negb_false_iff. apply eqb_eq.
Qed.

(** [trimStart] removes a run of white space and nothing else. *)
Lemma trimStart_spec s :
  exists pre, s = pre ++ trimStart s /\ forallb isWhiteSpace pre = true.
Proof.
  induction s as [|c s [pre [E W]]]; simpl.
  - exists []. auto.
  - destruct (isWhiteSpace c) eqn:Ec.
    + exists (c :: pre). simpl. rewrite Ec, W. split; [congruence | reflexivity].
    + exists []. auto.
Qed.

Lemma trim_spec s :
  exists pre post,
    s = pre ++ trim s ++ post
    /\ forallb isWhiteSpace pre = true /\ forallb isWhiteSpace post = true.
Proof.
  destruct (trimStart_spec s) as [pre [E W]].
  destruct (trimStart_spec (rev (trimStart s))) as [post [E' W']].
  exists pre, (rev post). unfold trim, trimEnd. repeat split.
  - rewrite <- rev_app_distr, <- E', rev_involutive. exact E.
  - exact W.
  - rewrite forallb_forall in *. intros c Hc. apply W'. now apply in_rev.
Qed.

Lemma trimStart_head s :
  match trimStart s with
  | [] => True
  | c :: _ => isWhiteSpace c = false
  end.
Proof.
  induction s as [|c s IH]; simpl; [exact I|].
  destruct (isWhiteSpace c) eqn:E; [exact IH | exact E].
Qed.

Lemma trimStart_fixed s :
  match s with [] => True | c :: _ => isWhiteSpace c = false end ->
  trimStart s = s.
Proof. destruct s as [|c s]; simpl; [reflexivity|]. now intros ->. Qed.

(** What [trim] leaves neither starts nor ends with white space. *)
Lemma trim_first s c t : trim s = c :: t -> isWhiteSpace c = false.
Proof.
  unfold trim, trimEnd.
  set (a := trimStart s). set (b := trimStart (rev a)). intros H.
  destruct (trimStart_spec (rev a)) as [ws [E _]]. fold b in E.
  apply (f_equal (@rev _)) in E. rewrite rev_involutive, rev_app_distr in E.
  pose proof (trimStart_head s) as Hs. fold a in Hs.
  rewrite E, H in Hs. exact Hs.
Qed.

Lemma trim_last s c t : trim s = t ++ [c] -> isWhiteSpace c = false.
Proof.
  unfold trim, trimEnd. intros H.
  apply (f_equal (@rev _)) in H. rewrite rev_involutive, rev_app_distr in H.
  pose proof (trimStart_head (rev (trimStart s))) as Hb.
  rewrite H in Hb. exact Hb.
Qed.

Lemma trim_trimmed s : trimmed (trim s).
Proof.
  split; intros c t H; [eapply trim_first | eapply trim_last]; exact H.
Qed.

Lemma trim_blank s : trim s = [] -> forallb isWhiteSpace s = true.
Proof.
  intros H. destruct (trim_spec s) as [pre [post [E [W W']]]].
  rewrite H in E. rewrite E. simpl. rewrite forallb_app, W, W'. reflexivity.
Qed.

(** ** The splitter: flush *)

(** C5, as the code has it. On upstream completion [flush] emits the pending
    buffer as one final event block if and only if the buffer is not blank;
    it does not assign the buffer, which keeps its content. *)
Theorem flush_emits_pending_buffer (buffer : JsString.t) :
  (snd (flush splitStream buffer) = [buffer] <-> trim buffer <> [])
  /\ (snd (flush splitStream buffer) = [] <-> trim buffer = [])
  /\ fst (flush splitStream buffer) = buffer.
Proof.
  simpl. unfold splitStream_flush. simpl.
  destruct (isValidString buffer) eqn:E.
  - apply isValidString_true in E. repeat split; try easy.
  - apply isValidString_false in E. repeat split; try easy.
Qed.

(** C5, as the specification has it, fails: a buffer that is not blank is
    emitted by [flush] but not cleared. *)
Lemma flush_clears_buffer_counterexample :
  let buffer := js "data: x" in
  snd (flush splitStream buffer) = [buffer]
  /\ fst (flush splitStream buffer) <> [].
Proof. split; [reflexivity | discriminate]. Qed.

(** ** The field parser, line by line *)

Lemma includes_indexOf p s :
  includes p s = true <-> exists i, indexOf p s = Some i.
Proof.
  unfold includes. destruct (indexOf p s) as [i|]; split; try easy.
  - intros _. now exists i.
  - intros [i H]. discriminate.
Qed.

Lemma startsWith_prefix p s :
  startsWith p s = true -> firstn (length p) s = p.
Proof.
  revert s. induction p as [|a p IH]; intros [|b s]; simpl; try easy.
  intros H. apply andb_prop in H as [E H]. apply N.eqb_eq in E. subst.
  f_equal. auto.
Qed.

(** [indexOf] finds an occurrence, and none starts earlier. *)
Lemma indexOf_split p s i :
  indexOf p s = Some i ->
  s = firstn i s ++ p ++ skipn (i + length p) s.
Proof.
  revert i. induction s as [|c s IH]; intros i; simpl indexOf.
  - destruct p; simpl; [|discriminate]. intros [= <-]. reflexivity.
  - destruct (startsWith p (c :: s)) eqn:E.
    + intros [= <-]. simpl firstn. simpl app at 1. simpl Nat.add.
      rewrite <- (startsWith_prefix _ _ E) at 1. symmetry. apply firstn_skipn.
    + destruct (indexOf p s) as [j|]; simpl; [|discriminate].
      intros [= <-]. simpl. f_equal. apply IH. reflexivity.
Qed.

Lemma indexOf_first c s i :
  indexOf [c] s = Some i -> ~ In c (firstn i s).
Proof.
  revert i. induction s as [|b s IH]; intros i; simpl indexOf.
  - discriminate.
  - simpl. destruct (c =? b)%N eqn:E; simpl.
    + intros [= <-]. simpl. tauto.
    + destruct (indexOf [c] s) as [j|]; simpl; [|discriminate].
      intros [= <-]. simpl. intros [->|H].
      * rewrite N.eqb_refl in E. discriminate.
      * exact (IH j eq_refl H).
Qed.

Lemma indexOf_absent c s : ~ In c s -> indexOf [c] s = None.
Proof.
  induction s as [|b s IH]; simpl; [reflexivity|]. intros H.
  destruct (c =? b)%N eqn:E; simpl.
  - apply N.eqb_eq in E. subst. tauto.
  - rewrite IH by tauto. reflexivity.
Qed.

Lemma substring_prefix s i : i <= length s -> substring s 0 i = firstn i s.
Proof.
  intros H. unfold substring. rewrite Nat.min_0_l, Nat.min_0_l, Nat.max_0_l.
  rewrite Nat.sub_0_r, Nat.min_l by exact H. reflexivity.
Qed.

(** One round of the loop adds the field of the line, or logs the line. *)
Lemma parseLine_fieldOf sseObject console line :
  parseLine (sseObject, console) line =
  (match fieldOf line with
   | Some (key, value) => JsObject.set key value sseObject
   | None => sseObject
   end,
   if includes DEFAULT_KV_SEPARATOR line then console
   else console ++ [warning line]).
Proof.
  unfold parseLine, fieldOf, includes.
  destruct (indexOf DEFAULT_KV_SEPARATOR line) as [i|] eqn:E; simpl.
  - apply indexOf_bound in E. simpl in E.
    rewrite substring_prefix by lia. unfold substringFrom.
    destruct (isValidString (firstn i line)); reflexivity.
  - reflexivity.
Qed.

(** C6. First separator wins: a line with a separator is cut at its first
    occurrence; the key is the text before it; the value is the text after
    it without the white space at its two ends: white space and nothing else
    is removed, and what is left neither starts nor ends with white space,
    so that later separators stay in the value. *)
Theorem first_separator_wins (line : JsString.t) :
  includes DEFAULT_KV_SEPARATOR line = true ->
  exists key rest pre post,
    line = key ++ DEFAULT_KV_SEPARATOR ++ rest
    /\ includes DEFAULT_KV_SEPARATOR key = false
    /\ rest = pre ++ trim rest ++ post
    /\ forallb isWhiteSpace pre = true
    /\ forallb isWhiteSpace post = true
    /\ trimmed (trim rest)
    /\ forall sseObject console,
         parseLine (sseObject, console) line =
         (if isValidString key then JsObject.set key (trim rest) sseObject
          else sseObject, console).
Proof.
  intros H. pose proof H as H'. apply includes_indexOf in H' as [i Hi].
  destruct (trim_spec (skipn (i + 1) line)) as [pre [post [E [W W']]]].
  exists (firstn i line), (skipn (i + 1) line), pre, post.
  split; [exact (indexOf_split _ _ Hi)|].
  split.
  { unfold includes. change DEFAULT_KV_SEPARATOR with [58%N] in *.
    rewrite indexOf_absent; [reflexivity|].
    exact (indexOf_first _ _ Hi). }
  split; [exact E|]. split; [exact W|]. split; [exact W'|].
  split; [apply trim_trimmed|].
  intros o c. rewrite parseLine_fieldOf, H. unfold fieldOf. rewrite Hi.
  simpl. destruct (isValidString (firstn i line)); reflexivity.
Qed.

Lemma first_separator_wins_witness :
  let line := js "data: " ++ [9%N] ++ js "https://a.com:8080/x"
              ++ [32%N; 160%N; 9%N] in
  includes DEFAULT_KV_SEPARATOR line = true
  /\ snd (splitEventPart_transform [] line)
     = [[(js "data", js "https://a.com:8080/x")]]
  /\ snd (splitEventPart_transform [] (js "data: https://a.com:8080/x"))
     = [[(js "data", js "https://a.com:8080/x")]]
  /\ exists key rest pre post,
    line = key ++ DEFAULT_KV_SEPARATOR ++ rest
    /\ includes DEFAULT_KV_SEPARATOR key = false
    /\ rest = pre ++ trim rest ++ post
    /\ forallb isWhiteSpace pre = true
    /\ forallb isWhiteSpace post = true
    /\ trimmed (trim rest)
    /\ forall sseObject console,
         parseLine (sseObject, console) line =
         (if isValidString key then JsObject.set key (trim rest) sseObject
          else sseObject, console).
Proof.
  split; [reflexivity | split; [reflexivity | split; [reflexivity|]]].
  apply first_separator_wins. reflexivity.
Defined.

Lemma parseLines_fold lines sseObject console :
  fold_left parseLine lines (sseObject, console) =
  (fold_left addField lines sseObject, console ++ warningsOf lines).
Proof.
  revert sseObject console.
  induction lines as [|l ls IH]; intros o c; cbn [fold_left].
  - simpl. rewrite app_nil_r. reflexivity.
  - rewrite parseLine_fieldOf, IH. fold (addField o l).
    unfold warningsOf. cbn [flat_map].
    destruct (includes DEFAULT_KV_SEPARATOR l); simpl;
      rewrite <- ?app_assoc; reflexivity.
Qed.

Lemma splitEventPart_transform_eq console partChunk :
  splitEventPart_transform console partChunk =
  (console ++ warningsOf (split DEFAULT_PART_SEPARATOR partChunk),
   emitted (fold_left addField (split DEFAULT_PART_SEPARATOR partChunk)
              (JsObject.empty JsString.t))).
Proof.
  unfold splitEventPart_transform, parseLines, emitted.
  rewrite parseLines_fold.
  destruct (Nat.eqb _ 0); reflexivity.
Qed.

Lemma fieldOf_malformed line :
  includes DEFAULT_KV_SEPARATOR line = false -> fieldOf line = None.
Proof.
  unfold includes, fieldOf.
  destruct (indexOf DEFAULT_KV_SEPARATOR line); [discriminate | reflexivity].
Qed.

(** C9. Malformed-line skip: a line of a block without separator is logged
    and skipped; the block is parsed as if the line were absent, so the
    lines after it still count, and the parse of the block does not fail. *)
Theorem malformed_line_skipped
  (block : JsString.t) (before after : list JsString.t) (bad : JsString.t)
  (console : Console) :
  split DEFAULT_PART_SEPARATOR block = before ++ bad :: after ->
  includes DEFAULT_KV_SEPARATOR bad = false ->
  (forall sseObject c,
     parseLine (sseObject, c) bad = (sseObject, c ++ [warning bad]))
  /\ snd (splitEventPart_transform console block)
     = emitted (fst (parseLines (before ++ after) console))
  /\ fst (splitEventPart_transform console block)
     = console ++ warningsOf before ++ [warning bad] ++ warningsOf after.
Proof.
  intros Hs Hbad. split; [|split].
  - intros o c. rewrite parseLine_fieldOf, Hbad, (fieldOf_malformed _ Hbad).
    reflexivity.
  - rewrite splitEventPart_transform_eq, Hs. unfold parseLines.
    rewrite parseLines_fold. simpl. rewrite !fold_left_app. simpl.
    unfold addField at 2. rewrite (fieldOf_malformed _ Hbad). reflexivity.
  - rewrite splitEventPart_transform_eq, Hs. simpl.
    unfold warningsOf. rewrite flat_map_app. simpl. rewrite Hbad. reflexivity.
Qed.

Lemma malformed_line_skipped_witness :
  let block := js ("data:hi" ++ nl ++ "notakeyvalue" ++ nl ++ "id:1") in
  snd (splitEventPart_transform [] block)
  = [[(js "data", js "hi"); (js "id", js "1")]]
  /\ fst (splitEventPart_transform [] block) = [warning (js "notakeyvalue")].
Proof.
  pose proof (@malformed_line_skipped
                (js ("data:hi" ++ nl ++ "notakeyvalue" ++ nl ++ "id:1"))
                [js "data:hi"] [js "id:1"] (js "notakeyvalue") []
                eq_refl eq_refl) as [_ [H1 H2]].
  split; [rewrite H1 | rewrite H2]; reflexivity.
Defined.

(** ** Blank blocks and empty maps *)

Lemma In_firstn (A : Type) (x : A) n l : In x (firstn n l) -> In x l.
Proof.
  intros H. rewrite <- (firstn_skipn n l). apply in_or_app. now left.
Qed.

Lemma In_skipn (A : Type) (x : A) n l : In x (skipn n l) -> In x l.
Proof.
  intros H. rewrite <- (firstn_skipn n l). apply in_or_app. now right.
Qed.

(** The pieces of a split are made of code units of the text. *)
Lemma splitAt_chars c sep' s piece x :
  In piece (splitAt c sep' s) -> In x piece -> In x s.
Proof.
  funelim (splitAt c sep' s); simpl; intros [<-|Hp] Hx; try easy.
  - eapply In_firstn; eassumption.
  - eapply In_skipn, H; eassumption.
Qed.

Lemma whitespace_line_no_field line :
  forallb isWhiteSpace line = true -> fieldOf line = None.
Proof.
  intros W. apply fieldOf_malformed. unfold includes.
  change DEFAULT_KV_SEPARATOR with [58%N]. rewrite indexOf_absent; [reflexivity|].
  intros H. rewrite forallb_forall in W. apply W in H. discriminate.
Qed.

Lemma addField_no_fields lines sseObject :
  Forall (fun line => fieldOf line = None) lines ->
  fold_left addField lines sseObject = sseObject.
Proof.
  intros H. revert sseObject. induction H as [|l ls Hl _ IH]; intros o; simpl.
  - reflexivity.
  - unfold addField at 2. rewrite Hl. apply IH.
Qed.

(** The splitter emits the pieces of the whole text that are not blank. *)
Lemma pipeThrough_splitStream_filter chunks :
  pipeThrough splitStream chunks =
  filter isValidString (split DEFAULT_STREAM_SEPARATOR (concat chunks)).
Proof.
  rewrite pipeThrough_splitStream. unfold pipeThrough.
  cbn [feed start transform flush splitStream].
  unfold splitStream_transform, splitStream_flush. cbn [app snd].
  rewrite app_nil_r.
  set (parts := split DEFAULT_STREAM_SEPARATOR (concat chunks)).
  assert (E : parts = removelast parts ++ [last parts []])
    by apply app_removelast_last, split_nonempty, stream_separator_nonempty.
  transitivity (filter isValidString (removelast parts ++ [last parts []])).
  - rewrite filter_app. reflexivity.
  - rewrite <- E. reflexivity.
Qed.

Lemma pipeThrough_splitEventPart_In o blocks :
  In o (pipeThrough splitEventPart blocks) ->
  exists console block, In o (snd (splitEventPart_transform console block)).
Proof.
  unfold pipeThrough.
  generalize (start splitEventPart). induction blocks as [|b bs IH]; intros c.
  - simpl. tauto.
  - cbn [feed]. change (transform splitEventPart c b)
      with (splitEventPart_transform c b).
    destruct (splitEventPart_transform c b) as [c1 out1] eqn:E1.
    specialize (IH c1). destruct (feed splitEventPart c1 bs) as [c2 out2].
    rewrite <- app_assoc. intros H. apply in_app_or in H as [H|H].
    + exists c, b. rewrite E1. exact H.
    + exact (IH H).
Qed.

(** C7. Blank-block dropping: the splitter hands on only the pieces of the
    text that are not blank, so a blank block is never parsed; a blank block
    would yield no map in any case; a map without entries is never emitted,
    and so the output holds no empty map. *)
Theorem blank_blocks_dropped
  (chunks : list JsString.t) (block : JsString.t) (console : Console) :
  trim block = [] ->
  pipeThrough splitStream chunks
  = filter isValidString (split DEFAULT_STREAM_SEPARATOR (concat chunks))
  /\ ~ In block (pipeThrough splitStream chunks)
  /\ snd (splitEventPart_transform console block) = []
  /\ (forall c b, ~ In (JsObject.empty JsString.t)
                      (snd (splitEventPart_transform c b)))
  /\ ~ In (JsObject.empty JsString.t) (parseStream chunks).
Proof.
  intros Hb.
  assert (E : forall c b, ~ In (JsObject.empty JsString.t)
                            (snd (splitEventPart_transform c b))).
  { intros c b. rewrite splitEventPart_transform_eq. simpl. unfold emitted.
    destruct (fold_left addField _ _) as [|e o]; simpl; [tauto|].
    destruct (Nat.eqb _ 0); simpl; [tauto|]. intros [H|[]]. discriminate. }
  split; [apply pipeThrough_splitStream_filter | split; [|split; [|split]]].
  - rewrite pipeThrough_splitStream_filter, filter_In.
    intros [_ H]. apply isValidString_true in H. contradiction.
  - rewrite splitEventPart_transform_eq. simpl.
    rewrite addField_no_fields; [reflexivity|].
    apply Forall_forall. intros line Hl. apply whitespace_line_no_field.
    apply forallb_forall. intros x Hx.
    pose proof (trim_blank _ Hb) as W. rewrite forallb_forall in W. apply W.
    eapply splitAt_chars; eassumption.
  - exact E.
  - unfold parseStream. intros H.
    apply pipeThrough_splitEventPart_In in H as [c [b H]]. exact (E c b H).
Qed.

Lemma blank_blocks_dropped_witness :
  let text := js ("data: a" ++ nl ++ nl ++ " " ++ nl ++ nl ++ nl ++ nl ++ "data: b") in
  pipeThrough splitStream [text] = [js "data: a"; js "data: b"]
  /\ snd (splitEventPart_transform [] (js " ")) = [].
Proof.
  pose proof (@blank_blocks_dropped
                [js ("data: a" ++ nl ++ nl ++ " " ++ nl ++ nl ++ nl ++ nl ++ "data: b")]
                (js " ") [] eq_refl) as [H1 [_ [H2 _]]].
  split; [rewrite H1; reflexivity | exact H2].
Defined.

(** ** Objects as maps: assignment and key order *)

Section ObjectFacts.
Variable V : Type.
Implicit Types (o : JsObject.t V) (k : JsString.t) (v : V).

Lemma has_In k o : JsObject.has k o = true <-> In k (map fst o).
Proof.
  unfold JsObject.has. induction o as [|[k' v'] o IH]; simpl.
  - split; [discriminate | tauto].
  - destruct (JsString.eqb k k') eqn:E.
    + apply eqb_eq in E. subst. tauto.
    + apply eqb_neq in E. rewrite IH. split; [tauto | intros [H|H]; congruence].
Qed.

Lemma keys_replace k v o : map fst (JsObject.replace k v o) = map fst o.
Proof.
  induction o as [|[k' v'] o IH]; simpl; [reflexivity|].
  destruct (JsString.eqb k k'); simpl; congruence.
Qed.

Lemma get_replace k v o k' :
  JsObject.has k o = true ->
  JsObject.get k' (JsObject.replace k v o) =
  if JsString.eqb k' k then Some v else JsObject.get k' o.
Proof.
  unfold JsObject.has. induction o as [|[k0 v0] o IH]; simpl; [discriminate|].
  destruct (JsString.eqb k k0) eqn:E; simpl.
  - intros _. apply eqb_eq in E. subst k0.
    destruct (JsString.eqb k' k); reflexivity.
  - intros H. destruct (JsString.eqb k' k0) eqn:E0.
    + apply eqb_eq in E0. subst k0.
      destruct (JsString.eqb k' k) eqn:E1; [|reflexivity].
      apply eqb_eq in E1. subst. rewrite eqb_refl in E. discriminate.
    + auto.
Qed.

Lemma get_append k v o k' :
  JsObject.has k o = false ->
  JsObject.get k' (o ++ [(k, v)]) =
  if JsString.eqb k' k then Some v else JsObject.get k' o.
Proof.
  unfold JsObject.has. induction o as [|[k0 v0] o IH]; simpl; [reflexivity|].
  destruct (JsString.eqb k k0) eqn:E; [discriminate|]. intros H.
  destruct (JsString.eqb k' k0) eqn:E0; [|auto].
  apply eqb_eq in E0. subst k0.
  destruct (JsString.eqb k' k) eqn:E1; [|reflexivity].
  apply eqb_eq in E1. subst. rewrite eqb_refl in E. discriminate.
Qed.

(** Assignment: nothing for [__proto__], the last value for any other key,
    other keys untouched. *)
Lemma get_set k v o k' :
  JsObject.get k' (JsObject.set k v o) =
  if JsString.eqb k (JsObject.proto) then JsObject.get k' o
  else if JsString.eqb k' k then Some v else JsObject.get k' o.
Proof.
  unfold JsObject.set. destruct (JsString.eqb k (JsObject.proto)); [reflexivity|].
  destruct (JsObject.has k o) eqn:H.
  - apply get_replace, H.
  - apply get_append, H.
Qed.

Lemma keys_set k v o :
  map fst (JsObject.set k v o) =
  if JsString.eqb k (JsObject.proto) || JsObject.has k o then map fst o
  else map fst o ++ [k].
Proof.
  unfold JsObject.set. destruct (JsString.eqb k (JsObject.proto)); simpl.
  - reflexivity.
  - destruct (JsObject.has k o).
    + apply keys_replace.
    + rewrite map_app. reflexivity.
Qed.

End ObjectFacts.

Lemma insertIndex_Forall (P : N * JsString.t -> Prop) e l :
  P e -> Forall P l -> Forall P (JsObject.insertIndex e l).
Proof.
  intros He H. induction H as [|e' l He' H IH]; simpl.
  - auto.
  - destruct (fst e <=? fst e')%N; auto.
Qed.

Lemma insertIndex_ascending e l :
  ascending l -> ascending (JsObject.insertIndex e l).
Proof.
  unfold ascending. intros H. induction H as [|e' l H IH F]; simpl.
  - constructor; constructor.
  - destruct (fst e <=? fst e')%N eqn:E.
    + apply N.leb_le in E. constructor.
      * constructor; assumption.
      * constructor; [exact E|].
        eapply Forall_impl; [|exact F]. simpl. intros a Ha. lia.
    + apply N.leb_gt in E. constructor; [exact IH|].
      apply insertIndex_Forall; [lia | exact F].
Qed.

(** [Object.keys] puts the array indices first, in ascending order. *)
Lemma indexKeys_ascending ks :
  ascending (JsObject.indexKeys ks)
  /\ Forall (fun e => JsObject.toIndex (snd e) = Some (fst e))
            (JsObject.indexKeys ks).
Proof.
  induction ks as [|k ks [IH1 IH2]]; simpl.
  - split; constructor.
  - destruct (JsObject.toIndex k) as [n|] eqn:E; [|auto]. split.
    + apply insertIndex_ascending, IH1.
    + apply insertIndex_Forall; [exact E | exact IH2].
Qed.

Lemma insertIndex_perm e l : Permutation (JsObject.insertIndex e l) (e :: l).
Proof.
  induction l as [|e' l IH]; simpl; [reflexivity|].
  destruct (fst e <=? fst e')%N; [reflexivity|].
  rewrite IH. apply perm_swap.
Qed.

(** ... and it lists each of them, once for each time it is given. *)
Lemma indexKeys_perm ks :
  Permutation (map snd (JsObject.indexKeys ks)) (filter JsObject.isIndex ks).
Proof.
  induction ks as [|k ks IH]; simpl; [reflexivity|].
  unfold JsObject.isIndex at 1. destruct (JsObject.toIndex k) as [n|]; [|exact IH].
  rewrite (Permutation_map snd (insertIndex_perm (n, k) _)). simpl.
  apply perm_skip, IH.
Qed.

(** ** The field map of a block *)

Lemma firstOccurrences_In k ks : In k (firstOccurrences ks) <-> In k ks.
Proof.
  induction ks as [|a ks IH]; simpl; [tauto|].
  rewrite filter_In, IH, negb_true_iff, eqb_neq.
  destruct (list_eq_dec N.eq_dec k a) as [->|N]; [tauto|].
  split; [tauto | intros [H|H]; [congruence | tauto]].
Qed.

Lemma firstOccurrences_NoDup ks : NoDup (firstOccurrences ks).
Proof.
  induction ks as [|a ks IH]; simpl; constructor.
  - rewrite filter_In, eqb_refl. simpl. intros [_ H]. discriminate.
  - apply NoDup_filter, IH.
Qed.

Lemma firstOccurrences_snoc ks k :
  firstOccurrences (ks ++ [k]) =
  if existsb (JsString.eqb k) ks then firstOccurrences ks
  else firstOccurrences ks ++ [k].
Proof.
  induction ks as [|a ks IH]; simpl; [reflexivity|].
  rewrite IH. destruct (JsString.eqb k a) eqn:E; simpl.
  - destruct (existsb (JsString.eqb k) ks); [reflexivity|].
    rewrite filter_app. simpl. rewrite E. simpl. rewrite app_nil_r. reflexivity.
  - destruct (existsb (JsString.eqb k) ks); [reflexivity|].
    rewrite filter_app. simpl. rewrite E. reflexivity.
Qed.

Lemma existsb_eqb_In k ks : existsb (JsString.eqb k) ks = true <-> In k ks.
Proof.
  rewrite existsb_exists. split.
  - intros [x [H E]]. apply eqb_eq in E. congruence.
  - intros H. exists k. split; [exact H | apply eqb_refl].
Qed.

Lemma addField_setField lines sseObject :
  fold_left addField lines sseObject =
  fold_left setField (fieldsOf lines) sseObject.
Proof.
  revert sseObject. induction lines as [|l ls IH]; intros o; simpl.
  - reflexivity.
  - rewrite fold_left_app, IH. unfold addField.
    destruct (fieldOf l) as [[k v]|]; reflexivity.
Qed.

(** The keys of the map in creation order: every stored key once, in the
    order of first occurrence. *)
Lemma setField_keys entries :
  map fst (fold_left setField entries (JsObject.empty JsString.t)) =
  firstOccurrences (filter storedKey (map fst entries)).
Proof.
  induction entries as [|[k v] es IH] using rev_ind; [reflexivity|].
  rewrite fold_left_app, map_app, filter_app. simpl.
  unfold setField at 1. simpl. rewrite keys_set, IH.
  replace (storedKey k) with (negb (JsString.eqb k (JsObject.proto)))
    by reflexivity.
  destruct (JsString.eqb k (JsObject.proto)) eqn:Ep; simpl.
  - rewrite app_nil_r. reflexivity.
  - rewrite firstOccurrences_snoc.
    set (ks := filter storedKey (map fst es)) in *.
    destruct (JsObject.has k _) eqn:Eh.
    + apply (proj1 (has_In _ _)) in Eh. rewrite IH in Eh.
      apply (proj1 (firstOccurrences_In _ _)) in Eh.
      apply (proj2 (existsb_eqb_In _ _)) in Eh. rewrite Eh. reflexivity.
    + destruct (existsb (JsString.eqb k) ks) eqn:Ee; [|reflexivity].
      apply (proj1 (existsb_eqb_In _ _)) in Ee.
      apply (proj2 (firstOccurrences_In _ _)) in Ee. rewrite <- IH in Ee.
      apply (proj2 (has_In _ _)) in Ee. congruence.
Qed.

(** The value of a stored key is the one of its last field. *)
Lemma setField_get entries key :
  JsObject.get key (fold_left setField entries (JsObject.empty JsString.t)) =
  if storedKey key then lastValue key entries else None.
Proof.
  unfold lastValue.
  induction entries as [|[k v] es IH] using rev_ind.
  - simpl. destruct (storedKey key); reflexivity.
  - rewrite fold_left_app, rev_app_distr. simpl.
    unfold setField at 1. simpl. rewrite get_set, IH.
    unfold storedKey. destruct (JsString.eqb k (JsObject.proto)) eqn:Ep.
    + destruct (JsString.eqb key k) eqn:Ek; [|reflexivity].
      apply eqb_eq in Ek. subst. rewrite Ep. reflexivity.
    + destruct (JsString.eqb key k) eqn:Ek; [|reflexivity].
      apply eqb_eq in Ek. subst key. rewrite Ep. reflexivity.
Qed.

(** C8, as the code has it. Duplicate-key overwrite: the map emitted for a
    block holds every key at most once; a key other than [__proto__] has the
    value of its last line, and [__proto__] is never stored; the keys are
    created in the order in which they are first met, and [Object.keys]
    lists those of them that are array indices first, each of them once, in
    ascending order, and the others after them in the order in which they
    were first met. *)
Theorem duplicate_key_overwrite (block : JsString.t) (console : Console) :
  let sseObject := fst (parseLines (split DEFAULT_PART_SEPARATOR block) console) in
  let entries := fields block in
  let created := firstOccurrences (filter storedKey (map fst entries)) in
  snd (splitEventPart_transform console block) = emitted sseObject
  /\ NoDup (map fst sseObject)
  /\ (forall key, JsObject.get key sseObject =
                  if storedKey key then lastValue key entries else None)
  /\ map fst sseObject = created
  /\ exists idx,
       JsObject.keys sseObject =
       map snd idx ++ filter (fun k => negb (JsObject.isIndex k)) created
       /\ Permutation (map snd idx) (filter JsObject.isIndex created)
       /\ ascending idx
       /\ Forall (fun e => JsObject.toIndex (snd e) = Some (fst e)) idx.
Proof.
  cbv zeta. unfold parseLines, fields. rewrite parseLines_fold. cbn [fst].
  rewrite addField_setField.
  set (entries := fieldsOf (split DEFAULT_PART_SEPARATOR block)).
  pose proof (setField_keys entries) as K.
  split; [|split; [|split; [|split]]].
  - rewrite splitEventPart_transform_eq, addField_setField. reflexivity.
  - rewrite K. apply firstOccurrences_NoDup.
  - intros key. apply setField_get.
  - exact K.
  - exists (JsObject.indexKeys
              (map fst (fold_left setField entries (JsObject.empty JsString.t)))).
    destruct (indexKeys_ascending
                (map fst (fold_left setField entries (JsObject.empty JsString.t))))
      as [A F].
    split; [|split; [|split; assumption]].
    + unfold JsObject.keys. rewrite K. reflexivity.
    + rewrite <- K. apply indexKeys_perm.
Qed.

Example duplicate_key_example :
  snd (splitEventPart_transform [] (js ("event:a" ++ nl ++ "event:b")))
  = [[(js "event", js "b")]].
Proof. reflexivity. Qed.

(** C8, as the specification has it, fails twice.  In the first block the
    key [b] is on two lines and the map holds it once, with its last value,
    but the key [1], an array index, is listed before it although it was met
    later.  In the second block the key [__proto__] is on two lines and the
    map does not hold it. *)
Lemma key_order_counterexample :
  let block := js ("b:1" ++ nl ++ "1:2" ++ nl ++ "b:3") in
  let block' := js ("a:1" ++ nl ++ "__proto__:x" ++ nl ++ "__proto__:y") in
  (exists sseObject,
     snd (splitEventPart_transform [] block) = [sseObject]
     /\ map fst (fields block) = [js "b"; js "1"; js "b"]
     /\ JsObject.get (js "b") sseObject = Some (js "3")
     /\ JsObject.keys sseObject = [js "1"; js "b"]
     /\ firstOccurrences (map fst (fields block)) = [js "b"; js "1"]
     /\ JsObject.keys sseObject <> firstOccurrences (map fst (fields block)))
  /\ (exists sseObject,
        snd (splitEventPart_transform [] block') = [sseObject]
        /\ map fst (fields block') = [js "a"; js "__proto__"; js "__proto__"]
        /\ JsObject.get (js "__proto__") sseObject = None
        /\ JsObject.keys sseObject = [js "a"]).
Proof.
  split.
  - eexists. split; [reflexivity|]. split; [reflexivity|].
    split; [reflexivity|]. split; [reflexivity|].
    split; [reflexivity | discriminate].
  - eexists. split; [reflexivity|]. split; [reflexivity|].
    split; reflexivity.
Qed.

(** ** The push subscription *)

(** Case analysis along the code of the async function: the innermost test
    first, then the definitions evaluated on the record. *)
Ltac no_match x :=
  lazymatch x with
  | context [match _ with _ => _ end] => fail
  | _ => idtac
  end.

Ltac break_match :=
  match goal with
  | |- context [match ?x with _ => _ end] => no_match x; destruct x eqn:?
  | H : context [match ?x with _ => _ end] |- _ => no_match x; destruct x eqn:?
  end.

Ltac invert_pairs :=
  repeat match goal with
         | H : (_, _) = (_, _) |- _ => inversion H; clear H
         end.

Ltac unfold_pump :=
  cbv [step settle loop catchError complete releaseLock cancel
       emit withPump withStream withUser withQueue withLock
       subscribing pump stream user trace queue locked fst snd] in *.

Ltac pump_cases :=
  repeat first [ break_match | progress unfold_pump | progress subst
               | progress invert_pairs ].

Section SubscribeFacts.

Variables (Output Err : Type).
Variable truthy : Output -> bool.
Variable lockedError : Err.
Variable U : Type.
Variable callback : Output -> U -> U * Reaction Err.
Variable onComplete : option (U -> U * option Err).

Implicit Types (s : Subscription Output Err U) (i : Input).

Lemma watch_app (tr evs : list (Event Output Err)) :
  watch (tr ++ evs) = fold_left (@watchStep Output Err) evs (watch tr).
Proof. unfold watch. apply fold_left_app. Qed.

Lemma watch_Violated (evs : list (Event Output Err)) :
  fold_left (@watchStep Output Err) evs Violated = Violated.
Proof. induction evs; simpl; auto. Qed.

Lemma watch_Quiet (evs : list (Event Output Err)) :
  fold_left (@watchStep Output Err) evs Quiet <> Violated ->
  forallb (@quietEvent Output Err) evs = true.
Proof.
  induction evs as [|ev evs IH]; simpl; [reflexivity|].
  destruct (quietEvent ev); simpl; [exact IH|].
  rewrite watch_Violated. congruence.
Qed.

(** A trace the scan accepts has no callback call and no read after a
    cancellation. *)
Lemma watch_sound (pre post : list (Event Output Err)) :
  watch (pre ++ Cancelled :: post) <> Violated ->
  forallb (@quietEvent Output Err) post = true.
Proof.
  rewrite watch_app. simpl. destruct (watch pre); simpl.
  - apply watch_Quiet.
  - apply watch_Quiet.
  - rewrite watch_Violated. congruence.
Qed.

Lemma cancelObserved_subscribe (st : Stream Output Err) (u : U) :
  cancelObserved (subscribe lockedError onComplete st u).
Proof.
  unfold subscribe, cancelObserved. pump_cases;
    unfold watch; simpl; split; congruence.
Qed.

Lemma cancelObserved_step s i :
  cancelObserved s -> cancelObserved (step truthy callback onComplete s i).
Proof.
  destruct s as [sub p st u tr]. unfold cancelObserved. cbn [trace subscribing].
  intros [H1 H2].
  assert (H : watch tr = Live \/ sub = false /\ watch tr = Quiet).
  { destruct sub; [left; auto|]. destruct (watch tr); auto; congruence. }
  clear H1 H2.
  destruct i; pump_cases; rewrite ?watch_app;
    destruct H as [-> | [? ->]]; subst; rewrite ?andb_false_r in *;
    simpl; try discriminate; split; congruence.
Qed.

Lemma cancelObserved_run inputs s :
  cancelObserved s -> cancelObserved (run truthy callback onComplete inputs s).
Proof.
  revert s. induction inputs as [|i inputs IH]; intros s H; simpl; [exact H|].
  apply IH, cancelObserved_step, H.
Qed.

(** C2. Cancellation stops delivery: in the life of a subscription, nothing
    that follows a call of the cancellation function is a call of the value
    callback or a new read; a read that is in flight when the function is
    called settles, its value is dropped, and the loop ends. *)
Theorem cancellation_stops_delivery
  (st : Stream Output Err) (u : U) (inputs : list Input)
  (pre post : list (Event Output Err)) :
  trace (run truthy callback onComplete inputs
           (subscribe lockedError onComplete st u))
  = pre ++ Cancelled :: post ->
  forallb (@quietEvent Output Err) post = true
  /\ forall s value q,
       pump s = Awaiting ->
       queue (stream s) = ReadValue value :: q ->
       let s' := settle truthy callback onComplete (cancel s) in
       trace s' = trace s ++ [Cancelled; ReleaseLock]
       /\ pump s' = Returned
       /\ queue (stream s') = q
       /\ user s' = user s.
Proof.
  intros H. split.
  - apply (watch_sound pre). rewrite <- H.
    apply cancelObserved_run, cancelObserved_subscribe.
  - intros [sub p str v tr] value q Hp Hq. cbn [pump stream] in Hp, Hq.
    subst p. unfold_pump. rewrite Hq. rewrite andb_false_r. unfold_pump.
    rewrite <- app_assoc. auto.
Qed.

Lemma delivered_app (tr evs : list (Event Output Err)) :
  delivered (tr ++ evs) = delivered tr ++ delivered evs.
Proof. apply flat_map_app. Qed.

Lemma completions_app (tr evs : list (Event Output Err)) :
  completions (tr ++ evs) = completions tr + completions evs.
Proof. unfold completions. rewrite filter_app. apply length_app. Qed.

Lemma notCompleted_subscribe (st : Stream Output Err) (u : U) :
  notCompleted (subscribe lockedError onComplete st u).
Proof.
  unfold subscribe, notCompleted. pump_cases; intros; try discriminate;
    reflexivity.
Qed.

Lemma notCompleted_step s i :
  notCompleted s -> notCompleted (step truthy callback onComplete s i).
Proof.
  destruct s as [sub p st u tr]. unfold notCompleted. cbn [trace pump].
  intros H. destruct i; pump_cases; intros; try discriminate;
    rewrite ?completions_app, H by assumption; reflexivity.
Qed.

Lemma notCompleted_run inputs s :
  notCompleted s -> notCompleted (run truthy callback onComplete inputs s).
Proof.
  revert s. induction inputs as [|i inputs IH]; intros s H; simpl; [exact H|].
  apply IH, notCompleted_step, H.
Qed.

(** Once the async function has ended, settling does nothing and cancelling
    changes the flag only. *)
Lemma run_ended inputs s :
  pump s <> Awaiting ->
  let s' := run truthy callback onComplete inputs s in
  pump s' = pump s
  /\ user s' = user s
  /\ stream s' = stream s
  /\ delivered (trace s') = delivered (trace s)
  /\ completions (trace s') = completions (trace s).
Proof.
  revert s. induction inputs as [|i inputs IH]; intros s H; simpl; [auto|].
  assert (E : pump (step truthy callback onComplete s i) = pump s
              /\ user (step truthy callback onComplete s i) = user s
              /\ stream (step truthy callback onComplete s i) = stream s
              /\ delivered (trace (step truthy callback onComplete s i))
                 = delivered (trace s)
              /\ completions (trace (step truthy callback onComplete s i))
                 = completions (trace s)).
  { destruct s as [sub p st u tr]. cbn [pump] in H.
    destruct i; unfold_pump.
    - destruct p; try congruence; auto.
    - rewrite delivered_app, completions_app. simpl.
      rewrite app_nil_r, Nat.add_0_r. auto. }
  destruct E as [E1 [E2 [E3 [E4 E5]]]].
  destruct (IH (step truthy callback onComplete s i)) as [I1 [I2 [I3 [I4 I5]]]];
    [congruence|].
  simpl in *. repeat split; congruence.
Qed.

(** C4. A read that fails: the error is caught and logged, [onComplete] is
    called then and at no other time in the life of the subscription, no
    value is delivered for the read or after it, and the async function
    ends without the error (it fails only with what [onComplete] throws). *)
Theorem read_error_completes
  (st : Stream Output Err) (u : U) (inputs more : list Input)
  (e : Err) (q : list (ReadResult Output Err)) :
  let s := run truthy callback onComplete inputs
             (subscribe lockedError onComplete st u) in
  pump s = Awaiting ->
  queue (stream s) = ReadError e :: q ->
  let s' := settle truthy callback onComplete s in
  let s'' := run truthy callback onComplete more s' in
  trace s' = trace s ++ [ReleaseLock; LogError e]
                     ++ match onComplete with
                        | Some _ => [Complete]
                        | None => []
                        end
  /\ pump s'' = match onComplete with
                | Some f => match snd (f (user s)) with
                            | Some e' => Failed e'
                            | None => Returned
                            end
                | None => Returned
                end
  /\ completions (trace s'') = match onComplete with
                               | Some _ => 1
                               | None => 0
                               end
  /\ delivered (trace s'') = delivered (trace s).
Proof.
  intros s Hp Hq s' s''.
  assert (N : notCompleted s) by apply notCompleted_run, notCompleted_subscribe.
  specialize (N Hp). clearbody s.
  assert (E : trace s' = trace s ++ [ReleaseLock; LogError e]
                         ++ match onComplete with
                            | Some _ => [Complete]
                            | None => []
                            end
              /\ pump s' = match onComplete with
                           | Some f => match snd (f (user s)) with
                                       | Some e' => Failed e'
                                       | None => Returned
                                       end
                           | None => Returned
                           end).
  { subst s' s''. destruct s as [sub p str v tr]. cbn [pump stream trace user] in *.
    subst p. unfold_pump. rewrite Hq.
    pump_cases; cbn [trace pump snd]; rewrite <- ?app_assoc; simpl; auto;
      try congruence;
      match goal with
      | H1 : ?f ?x = _, H2 : ?f ?x = _ |- _ => rewrite H1 in H2; inversion H2; auto
      end. }
  destruct E as [Et Ep].
  assert (Hend : pump s' <> Awaiting).
  { rewrite Ep. destruct onComplete as [f|]; [|congruence].
    destruct (snd (f (user s))); congruence. }
  destruct (run_ended more _ Hend) as [R1 [_ [_ [R4 R5]]]].
  fold s'' in R1, R4, R5.
  split; [exact Et|]. split; [congruence|]. split.
  - rewrite R5, Et, !completions_app, N. destruct onComplete; reflexivity.
  - rewrite R4, Et, !delivered_app. destruct onComplete; simpl;
      rewrite app_nil_r; reflexivity.
Qed.

End SubscribeFacts.

(** ** Falsy values, and the two ways to read a finite source *)

Section ConsumerFacts.

Variables (Output Err : Type).
Variable truthy : Output -> bool.
Variable lockedError : Err.
Variable awaitValue : Output -> Awaited Output Err.









Section Pushed.

Variable U : Type.
Variable callback : Output -> U -> U * Reaction Err.
Variable onComplete : option (U -> U * option Err).





End Pushed.

Lemma next_skip g (q : list (ReadResult Output Err)) l value :
  truthy value = false -> g <> GenCompleted -> (g = GenStart -> l = false) ->
  next truthy lockedError awaitValue
    {| generator := g; source := {| queue := ReadValue value :: q; locked := l |} |}
  = next truthy lockedError awaitValue
      {| generator := g; source := {| queue := q; locked := l |} |}.
Proof.
  intros F Hg Hl. unfold next, resume, withLock, withQueue. simpl.
  rewrite F. simpl.
  destruct g; [rewrite Hl by reflexivity | | congruence]; reflexivity.
Qed.

(** A [for await] loop over values that are not thenables, followed by
    anything but a value. *)
Lemma forAwait_prefix (vs : list Output) tail g l n :
  plainValues awaitValue vs ->
  length vs < n -> startsWithValue tail = false ->
  g <> GenCompleted -> (g = GenStart -> l = false) ->
  forAwait truthy lockedError awaitValue n
    {| generator := g;
       source := {| queue := map ReadValue vs ++ tail; locked := l |} |}
  = (filter truthy vs, ending tail).
Proof.
  intros P. revert g l n.
  induction P as [|v vs Pv P IH]; intros g l n Hn Ht Hg Hl.
  - destruct n as [|n]; [simpl in Hn; lia|]. simpl.
    destruct tail as [|[v| |e] tail]; try discriminate;
      (destruct g; [rewrite Hl by reflexivity | | congruence]; reflexivity).
  - destruct n as [|n]; [simpl in Hn; lia|]. simpl in Hn.
    destruct (truthy v) eqn:T.
    + assert (E : exists l',
                next truthy lockedError awaitValue
                  {| generator := g;
                     source := {| queue := map ReadValue (v :: vs) ++ tail;
                                  locked := l |} |}
                = (Yielded v,
                   {| generator := GenSuspendedYield;
                      source := {| queue := map ReadValue vs ++ tail;
                                   locked := l' |} |})).
      { unfold next, resume, withLock, withQueue. simpl. rewrite T, Pv. simpl.
        destruct g; [rewrite Hl by reflexivity | | congruence]; eexists;
          reflexivity. }
      destruct E as [l' E]. cbn [forAwait]. rewrite E.
      rewrite IH; [|lia|assumption|discriminate|discriminate].
      simpl. rewrite T. reflexivity.
    + cbn [forAwait]. simpl map. simpl app. rewrite (next_skip _ T Hg Hl).
      specialize (IH g l (S n)). cbn [forAwait] in IH.
      rewrite IH; [|lia|assumption|assumption|assumption].
      simpl. rewrite T. reflexivity.
Qed.

(** A [for await] loop over a finite source of values that are not
    thenables ends, with the truthy values. *)
Lemma forAwait_finite (vs : list Output) g l n :
  plainValues awaitValue vs ->
  length vs < n -> g <> GenCompleted -> (g = GenStart -> l = false) ->
  forAwait truthy lockedError awaitValue n
    {| generator := g;
       source := {| queue := map ReadValue vs ++ [ReadDone]; locked := l |} |}
  = (filter truthy vs, Finished).
Proof.
  intros P Hn Hg Hl.
  exact (forAwait_prefix [ReadDone] P Hn eq_refl Hg Hl).
Qed.

Lemma run_repeat_Settle U callback onComplete n (s : Subscription Output Err U) :
  run truthy callback onComplete (repeat Settle (S n)) s
  = run truthy callback onComplete (repeat Settle n)
      (settle truthy callback onComplete s).
Proof. reflexivity. Qed.

(** [collectAll] on a finite source: the promise is resolved, with the
    truthy values in order. *)
Lemma collected_finite (vs : list Output) l acc tr n :
  length vs < n ->
  promise
    (user
       (run truthy (@pushValue Output Err) (Some (@resolveValues Output Err))
          (repeat Settle n)
          {| subscribing := true; pump := Awaiting;
             stream := {| queue := map ReadValue vs ++ [ReadDone]; locked := l |};
             user := {| values := acc; resolved := false |};
             trace := tr |}))
  = Some (acc ++ filter truthy vs).
Proof.
  revert acc tr n. induction vs as [|v vs IH]; intros acc tr n Hn.
  - destruct n as [|n]; [simpl in Hn; lia|]. rewrite run_repeat_Settle.
    match goal with
    | |- promise (user (run _ _ _ _ ?s)) = _ =>
        assert (E : pump s <> Awaiting) by (simpl; discriminate);
        destruct (run_ended truthy (@pushValue Output Err)
                    (Some (@resolveValues Output Err)) (repeat Settle n) s E)
          as [_ [-> _]]
    end.
    simpl. rewrite app_nil_r. reflexivity.
  - destruct n as [|n]; [simpl in Hn; lia|]. rewrite run_repeat_Settle.
    simpl in Hn. unfold settle at 1. cbn [pump stream queue map app].
    destruct (truthy v) eqn:T; cbn [andb subscribing];
      unfold_pump; simpl; rewrite T.
    + rewrite IH by lia. rewrite <- app_assoc. reflexivity.
    + apply IH. lia.
Qed.

(** C3, as the code has it. Collection equivalence: on a finite source whose
    values are not thenables, once its reads have settled, the promise of
    [collectAll] is resolved with the array of the values that a [for await]
    loop receives before it ends, in the same order. *)
Theorem collection_equivalence (vs : list Output) (n m : nat) :
  plainValues awaitValue vs ->
  length vs < n -> length vs < m ->
  collected truthy lockedError n (finiteSource Err vs)
  = Some (fst (forAwait truthy lockedError awaitValue m
                 (asyncIterator (finiteSource Err vs))))
  /\ snd (forAwait truthy lockedError awaitValue m
            (asyncIterator (finiteSource Err vs)))
     = Finished
  /\ fst (forAwait truthy lockedError awaitValue m
            (asyncIterator (finiteSource Err vs)))
     = filter truthy vs.
Proof.
  intros P Hn Hm. unfold asyncIterator, finiteSource.
  rewrite forAwait_finite by (try assumption; try discriminate; reflexivity).
  split; [|split; reflexivity].
  unfold collected, collectAll, subscribe. cbn [locked].
  unfold loop, withPump, withStream, withLock, emit.
  cbn [subscribing pump stream user trace queue locked].
  rewrite collected_finite by assumption. reflexivity.
Qed.

End ConsumerFacts.

(** ** The statements at concrete subscriptions *)

Example falsy_examples :
  ToBoolean (JsStr []) = false /\ ToBoolean (JsInteger 0) = false
  /\ ToBoolean JsNull = false.
Proof. repeat split. Qed.

Lemma cancellation_stops_delivery_witness :
  let st := {| queue := [ReadValue (JsInteger 1); ReadValue (JsInteger 2);
                         ReadDone];
               locked := false |} in
  let s := run ToBoolean recordValue noteComplete [Settle; Cancel; Settle; Settle]
             (subscribe typeError noteComplete st []) in
  trace s = [Read; Value (JsInteger 1); Read] ++ Cancelled :: [ReleaseLock]
  /\ user s = [JsInteger 1]
  /\ forallb (@quietEvent JsValue JsValue) [ReleaseLock] = true.
Proof.
  split; [reflexivity | split; [reflexivity|]].
  exact (proj1 (@cancellation_stops_delivery JsValue JsValue ToBoolean typeError
                  (list JsValue) recordValue noteComplete
                  {| queue := [ReadValue (JsInteger 1); ReadValue (JsInteger 2);
                               ReadDone];
                     locked := false |}
                  [] [Settle; Cancel; Settle; Settle]
                  [Read; Value (JsInteger 1); Read] [ReleaseLock] eq_refl)).
Defined.

Lemma read_error_completes_witness :
  let st := {| queue := [ReadValue (JsInteger 1); ReadError (JsStr (js "boom"))];
               locked := false |} in
  let s := run ToBoolean recordValue noteComplete [Settle]
             (subscribe typeError noteComplete st []) in
  let s'' := run ToBoolean recordValue noteComplete [Settle; Cancel]
               (settle ToBoolean recordValue noteComplete s) in
  pump s = Awaiting
  /\ queue (stream s) = [ReadError (JsStr (js "boom"))]
  /\ pump s'' = Returned
  /\ completions (trace s'') = 1
  /\ delivered (trace s'') = [JsInteger 1].
Proof.
  split; [reflexivity | split; [reflexivity|]].
  destruct (@read_error_completes JsValue JsValue ToBoolean typeError
              (list JsValue) recordValue noteComplete
              {| queue := [ReadValue (JsInteger 1); ReadError (JsStr (js "boom"))];
                 locked := false |}
              [] [Settle] [Settle; Cancel] (JsStr (js "boom")) []
              eq_refl eq_refl) as [_ [H2 [H3 H4]]].
  split; [exact H2 | split; [exact H3 | exact H4]].
Defined.


(** C3, as the specification has it, fails on a source that holds a
    thenable: [collectAll] keeps the thenable, the iterator yields what it
    resolves to. *)
Lemma collection_thenable_counterexample :
  let vs := [JsThenable (Resolved (JsInteger 1))] in
  collected ToBoolean typeError 2 (finiteSource JsValue vs)
  = Some [JsThenable (Resolved (JsInteger 1))]
  /\ forAwait ToBoolean typeError awaitJs 2
       (asyncIterator (finiteSource JsValue vs))
     = ([JsInteger 1], Finished)
  /\ collected ToBoolean typeError 2 (finiteSource JsValue vs)
     <> Some (fst (forAwait ToBoolean typeError awaitJs 2
                     (asyncIterator (finiteSource JsValue vs)))).
Proof. split; [reflexivity | split; [reflexivity | discriminate]]. Qed.

Lemma collection_equivalence_witness :
  let vs := [JsInteger 1; JsStr []; JsStr (js "x")] in
  plainValues awaitJs vs
  /\ collected ToBoolean typeError 4 (finiteSource JsValue vs)
     = Some (fst (forAwait ToBoolean typeError awaitJs 4
                    (asyncIterator (finiteSource JsValue vs))))
  /\ fst (forAwait ToBoolean typeError awaitJs 4
            (asyncIterator (finiteSource JsValue vs)))
     = [JsInteger 1; JsStr (js "x")].
Proof.
  assert (P : plainValues awaitJs [JsInteger 1; JsStr []; JsStr (js "x")])
    by (repeat constructor).
  split; [exact P|].
  destruct (@collection_equivalence JsValue JsValue ToBoolean typeError awaitJs
              [JsInteger 1; JsStr []; JsStr (js "x")] 4 4 P
              ltac:(simpl; lia) ltac:(simpl; lia)) as [H1 [_ H3]].
  split; [exact H1 | exact H3].
Defined.

(** ** More on the splitter *)

Lemma indexOf_firstn_None p s i :
  p <> [] -> indexOf p s = Some i -> indexOf p (firstn i s) = None.
Proof.
  intros Hp Hi. destruct (indexOf p (firstn i s)) as [j|] eqn:E; [|reflexivity].
  pose proof (indexOf_bound _ _ E) as B.
  apply (indexOf_app _ _ (skipn i s)) in E. rewrite firstn_skipn, Hi in E.
  injection E as <-. pose proof (firstn_le_length i s) as L.
  destruct p; [congruence | simpl in B; lia].
Qed.

(** No piece of a split holds the separator. *)
Lemma splitAt_pieces_clean c sep' s piece :
  In piece (splitAt c sep' s) -> indexOf (c :: sep') piece = None.
Proof.
  funelim (splitAt c sep' s); simpl; intros [<-|Hp]; try easy.
  - apply indexOf_firstn_None; [discriminate | exact Hi].
  - apply H, Hp.
Qed.

Lemma last_In (A : Type) (l : list A) d : l <> [] -> In (last l d) l.
Proof.
  intros H. rewrite (app_removelast_last d H) at 2.
  apply in_or_app. right. left. reflexivity.
Qed.

Lemma In_removelast (A : Type) (l : list A) x : In x (removelast l) -> In x l.
Proof.
  destruct l as [|a l]; [easy|]. intros H.
  rewrite (app_removelast_last a (l := a :: l)) by discriminate.
  apply in_or_app. now left.
Qed.

(** X1. The splitter never lets the event separator through: after any
    sequence of chunks the pending buffer holds no separator, and every
    block emitted, by [transform] or by [flush], holds no separator and is
    not blank. *)
Theorem splitter_blocks_clean (chunks : list JsString.t) :
  indexOf DEFAULT_STREAM_SEPARATOR
    (fst (feed splitStream (start splitStream) chunks)) = None
  /\ Forall (fun block =>
               indexOf DEFAULT_STREAM_SEPARATOR block = None
               /\ trim block <> [])
       (pipeThrough splitStream chunks).
Proof.
  split.
  - destruct chunks as [|c cs]; [reflexivity|].
    rewrite splitStream_feed by discriminate.
    unfold splitStream_transform. cbn [fst].
    apply (splitAt_pieces_clean 10%N [10%N] (start splitStream ++ concat (c :: cs))).
    apply last_In, splitAt_nonempty.
  - rewrite pipeThrough_splitStream_filter. apply Forall_forall.
    intros block H. apply filter_In in H as [H V]. split.
    + exact (splitAt_pieces_clean _ _ _ _ H).
    + apply isValidString_true, V.
Qed.

Lemma join_cons sep p ps :
  ps <> [] -> join sep (p :: ps) = p ++ sep ++ join sep ps.
Proof. destruct ps; [congruence | reflexivity]. Qed.

Lemma splitAt_join c sep' s : join (c :: sep') (splitAt c sep' s) = s.
Proof.
  funelim (splitAt c sep' s).
  - rewrite join_cons by apply splitAt_nonempty. rewrite H.
    symmetry. exact (indexOf_split _ _ Hi).
  - reflexivity.
Qed.

(** X2. The splitter loses no text: what a [transform] call leaves in the
    buffer, together with the pieces it closed, of which it emits the ones
    that are not blank, is the old buffer followed by the chunk, cut at
    separators. *)
Theorem splitter_keeps_text (buffer streamChunk : JsString.t) :
  exists pieces,
    snd (transform splitStream buffer streamChunk)
    = filter isValidString pieces
    /\ join DEFAULT_STREAM_SEPARATOR
         (pieces ++ [fst (transform splitStream buffer streamChunk)])
       = buffer ++ streamChunk.
Proof.
  exists (removelast (split DEFAULT_STREAM_SEPARATOR (buffer ++ streamChunk))).
  split; [reflexivity|]. cbn [transform splitStream].
  unfold splitStream_transform. cbn [fst].
  rewrite <- app_removelast_last
    by apply split_nonempty, stream_separator_nonempty.
  apply (splitAt_join 10%N [10%N]).
Qed.

(** ** More on the field parser *)

Lemma feed_splitEventPart console blocks :
  feed splitEventPart console blocks =
  (console ++ flat_map (fun block =>
                          warningsOf (split DEFAULT_PART_SEPARATOR block)) blocks,
   flat_map (fun block => emitted (parseBlock block)) blocks).
Proof.
  revert console. induction blocks as [|b bs IH]; intros console.
  - simpl. rewrite app_nil_r. reflexivity.
  - cbn [feed flat_map]. change (transform splitEventPart console b)
      with (splitEventPart_transform console b).
    rewrite splitEventPart_transform_eq, IH, addField_setField.
    rewrite <- app_assoc. reflexivity.
Qed.

Lemma parseStream_blocks (chunks : list JsString.t) :
  parseStream chunks
  = flat_map (fun block => emitted (parseBlock block))
      (filter isValidString
         (split DEFAULT_STREAM_SEPARATOR (concat chunks))).
Proof.
  unfold parseStream, pipeThrough at 1.
  rewrite pipeThrough_splitStream_filter, feed_splitEventPart.
  cbn [fst snd flush splitEventPart start]. rewrite app_nil_r. reflexivity.
Qed.

(** X3. The default pipeline as a function of the whole text: the maps it
    emits are those of the pieces of the text between event separators that
    are not blank, one map for each piece that has a field, in order; and
    the warnings it logs are those of the lines of these pieces that have no
    colon, in order. *)
Theorem parseStream_by_blocks (chunks : list JsString.t) :
  let blocks := filter isValidString
                  (split DEFAULT_STREAM_SEPARATOR (concat chunks)) in
  parseStream chunks
  = flat_map (fun block => emitted (parseBlock block)) blocks
  /\ fst (feed splitEventPart (start splitEventPart)
            (pipeThrough splitStream chunks))
     = flat_map (fun block =>
                   warningsOf (split DEFAULT_PART_SEPARATOR block)) blocks.
Proof.
  cbv zeta. split; [apply parseStream_blocks|].
  rewrite pipeThrough_splitStream_filter, feed_splitEventPart.
  reflexivity.
Qed.

(** Trimming twice is trimming once. *)
Lemma trim_idempotent s : trim (trim s) = trim s.
Proof.
  unfold trim, trimEnd.
  set (a := trimStart s). set (b := trimStart (rev a)).
  assert (Hb : trimStart b = b) by apply trimStart_fixed, trimStart_head.
  assert (Ha : trimStart (rev b) = rev b).
  { apply trimStart_fixed.
    destruct (trimStart_spec (rev a)) as [ws [E _]]. fold b in E.
    apply (f_equal (@rev _)) in E. rewrite rev_involutive, rev_app_distr in E.
    pose proof (trimStart_head s) as Hs. fold a in Hs. rewrite E in Hs.
    destruct (rev b); [exact I | exact Hs]. }
  rewrite Ha, rev_involutive, Hb. reflexivity.
Qed.

Lemma trim_In s x : In x (trim s) -> In x s.
Proof.
  intros H. destruct (trim_spec s) as [pre [post [E _]]]. rewrite E.
  apply in_or_app. right. apply in_or_app. now left.
Qed.

Lemma indexOf_None_notIn c s : indexOf [c] s = None -> ~ In c s.
Proof.
  induction s as [|b s IH]; simpl; [tauto|].
  destruct (c =? b)%N eqn:E; simpl; [discriminate|].
  destruct (indexOf [c] s); simpl; [discriminate|]. intros _ [->|H].
  - rewrite N.eqb_refl in E. discriminate.
  - exact (IH eq_refl H).
Qed.

Lemma split_lines_clean block line :
  In line (split DEFAULT_PART_SEPARATOR block) -> ~ In 10%N line.
Proof.
  intros H. apply indexOf_None_notIn.
  exact (splitAt_pieces_clean 10%N [] _ _ H).
Qed.

Lemma fieldOf_stored line e :
  ~ In 10%N line -> fieldOf line = Some e ->
  trim (fst e) <> [] /\ ~ In 58%N (fst e) /\ ~ In 10%N (fst e)
  /\ trim (snd e) = snd e /\ ~ In 10%N (snd e).
Proof.
  unfold fieldOf. intros Hl.
  destruct (indexOf DEFAULT_KV_SEPARATOR line) as [i|] eqn:Hi; [|discriminate].
  cbv zeta.
  destruct (isValidString _) eqn:V; [|discriminate].
  intros [= <-]. cbn [fst snd]. repeat split.
  - apply isValidString_true, V.
  - exact (indexOf_first _ _ Hi).
  - intros H. apply Hl. eapply In_firstn, H.
  - apply trim_idempotent.
  - intros H. apply Hl. eapply In_skipn, trim_In, H.
Qed.

Lemma set_In (V : Type) k (v : V) o e :
  In e (JsObject.set k v o) ->
  In e o \/ (e = (k, v) /\ k <> JsObject.proto).
Proof.
  unfold JsObject.set. destruct (JsString.eqb k (JsObject.proto)) eqn:Ep; [auto|].
  apply eqb_neq in Ep. destruct (JsObject.has k o).
  - induction o as [|[k' v'] o IH]; simpl; [tauto|].
    destruct (JsString.eqb k k') eqn:E; simpl.
    + apply eqb_eq in E. subst k'. intros [<-|H]; auto.
    + intros [<-|H]; [auto|]. destruct (IH H); auto.
  - intros H. apply in_app_or in H as [H|[<-|[]]]; auto.
Qed.

Lemma setField_In entries o e :
  In e (fold_left setField entries o) ->
  In e o \/ (In e entries /\ fst e <> JsObject.proto).
Proof.
  revert o. induction entries as [|[k v] es IH]; intros o; simpl; [auto|].
  intros H. apply IH in H as [H|[H P]]; [|auto].
  unfold setField in H. simpl in H. apply set_In in H as [H|[-> P]]; auto.
Qed.

(** X4. What an emitted map holds: it is not empty, no key occurs twice, and
    every entry has a key that is not blank, holds no colon and no line feed
    and is not [__proto__], and a value that is trimmed and holds no line
    feed. *)
Theorem emitted_maps_stored (chunks : list JsString.t) :
  Forall (fun sseObject : SSEOutput =>
            sseObject <> []
            /\ NoDup (map fst sseObject)
            /\ Forall storedField sseObject)
    (parseStream chunks).
Proof.
  rewrite parseStream_blocks.
  apply Forall_forall. intros o H. apply in_flat_map in H as [block [_ H]].
  unfold emitted in H.
  destruct (Nat.eqb (length (JsObject.keys (parseBlock block))) 0) eqn:E;
    [destruct H|]. destruct H as [<-|[]]. split; [|split].
  - intros N. rewrite N in E. discriminate.
  - unfold parseBlock. rewrite setField_keys. apply firstOccurrences_NoDup.
  - apply Forall_forall. intros e He. unfold parseBlock in He.
    apply setField_In in He as [[]|[He P]].
    unfold fields, fieldsOf in He. apply in_flat_map in He as [line [Hl He]].
    destruct (fieldOf line) as [e'|] eqn:F; [|destruct He].
    destruct He as [<-|[]].
    destruct (fieldOf_stored line (split_lines_clean _ _ Hl) F)
      as [A [B [C [D G]]]].
    unfold storedField. auto 10.
Qed.

Lemma trimStart_blank s : forallb isWhiteSpace s = true -> trimStart s = [].
Proof.
  induction s as [|c s IH]; simpl; [reflexivity|].
  intros H. apply andb_prop in H as [-> H]. auto.
Qed.

(** X5. A string is valid exactly when it holds a code unit that is not white
    space. *)
Theorem isValidString_spec (str : JsString.t) :
  isValidString str = existsb (fun c => negb (isWhiteSpace c)) str.
Proof.
  destruct (forallb isWhiteSpace str) eqn:W.
  - assert (E : existsb (fun c => negb (isWhiteSpace c)) str = false).
    { clear -W. induction str as [|c s IH]; simpl in *; [reflexivity|].
      apply andb_prop in W as [-> W]. simpl. auto. }
    rewrite E. apply isValidString_false.
    unfold trim, trimEnd. rewrite (trimStart_blank _ W). reflexivity.
  - assert (E : existsb (fun c => negb (isWhiteSpace c)) str = true).
    { clear -W. induction str as [|c s IH]; simpl in *; [discriminate|].
      destruct (isWhiteSpace c); simpl in *; auto. }
    rewrite E. apply isValidString_true. intros T.
    apply trim_blank in T. congruence.
Qed.

Lemma indexOf_single_app c l rest :
  ~ In c l -> indexOf [c] (l ++ c :: rest) = Some (length l).
Proof.
  induction l as [|b l IH]; simpl; intros H.
  - rewrite N.eqb_refl. reflexivity.
  - destruct (c =? b)%N eqn:E; simpl.
    + apply N.eqb_eq in E. subst. tauto.
    + rewrite IH by tauto. reflexivity.
Qed.

Lemma skipn_length_app (A : Type) (l : list A) x rest :
  skipn (length l + 1) (l ++ x :: rest) = rest.
Proof. induction l; simpl; auto. Qed.

Lemma firstn_length_app (A : Type) (l rest : list A) :
  firstn (length l) (l ++ rest) = l.
Proof. induction l; simpl; congruence. Qed.

Lemma indexOf_colon (key rest : JsString.t) :
  ~ In 58%N key ->
  indexOf DEFAULT_KV_SEPARATOR (key ++ DEFAULT_KV_SEPARATOR ++ rest)
  = Some (length key).
Proof. exact (indexOf_single_app 58%N key rest). Qed.

Lemma skipn_colon (key rest : JsString.t) :
  skipn (length key + 1) (key ++ DEFAULT_KV_SEPARATOR ++ rest) = rest.
Proof. exact (skipn_length_app key 58%N rest). Qed.

(** X6. A line whose text before the first colon is blank, such as a comment
    line that starts with a colon, adds no field and logs no warning. *)
Theorem blank_key_line_silent
  (key rest : JsString.t) (sseObject : SSEOutput) (console : Console) :
  trim key = [] ->
  parseLine (sseObject, console) (key ++ DEFAULT_KV_SEPARATOR ++ rest)
  = (sseObject, console).
Proof.
  intros B. assert (N : ~ In 58%N key).
  { intros H. apply trim_blank in B. rewrite forallb_forall in B.
    apply B in H. discriminate. }
  rewrite parseLine_fieldOf. unfold fieldOf, includes.
  rewrite (indexOf_colon key rest N). cbv zeta.
  rewrite firstn_length_app.
  apply isValidString_false in B. rewrite B. reflexivity.
Qed.

Lemma blank_key_line_silent_witness :
  parseLine ([(js "data", js "x")], []) (js ": keep-alive")
  = ([(js "data", js "x")], []).
Proof.
  exact (@blank_key_line_silent (js "") (js " keep-alive")
           [(js "data", js "x")] [] eq_refl).
Defined.

Lemma split_join_lines lines :
  lines <> [] -> Forall (fun line => ~ In 10%N line) lines ->
  split DEFAULT_PART_SEPARATOR (join DEFAULT_PART_SEPARATOR lines) = lines.
Proof.
  intros Hne H. induction H as [|l ls Hl H IH]; [congruence|].
  unfold split, DEFAULT_PART_SEPARATOR in *. destruct ls as [|l2 ls].
  - simpl. rewrite splitAt_eq, indexOf_absent by exact Hl. reflexivity.
  - rewrite join_cons by discriminate.
    change (l ++ [10%N] ++ join [10%N] (l2 :: ls))
      with (l ++ 10%N :: join [10%N] (l2 :: ls)).
    rewrite splitAt_eq, indexOf_single_app by exact Hl.
    rewrite firstn_length_app. simpl length. rewrite skipn_length_app.
    rewrite IH by discriminate. reflexivity.
Qed.

Lemma fieldOf_encodeField e :
  storedField e -> fieldOf (encodeField e) = Some e.
Proof.
  destruct e as [k v]. unfold storedField, encodeField. cbn [fst snd].
  intros [A [B [_ [_ [D _]]]]]. unfold fieldOf.
  rewrite (indexOf_colon k v B). cbv zeta.
  rewrite firstn_length_app, skipn_colon, D.
  apply isValidString_true in A. rewrite A. reflexivity.
Qed.

Lemma setField_fresh entries o :
  NoDup (map fst o ++ map fst entries) ->
  Forall (fun e => fst e <> JsObject.proto) entries ->
  fold_left setField entries o = o ++ entries.
Proof.
  revert o. induction entries as [|[k v] es IH]; intros o N P; simpl.
  - rewrite app_nil_r. reflexivity.
  - inversion P as [|? ? Pk Pes]; subst. simpl in Pk.
    assert (F : setField o (k, v) = o ++ [(k, v)]).
    { unfold setField, JsObject.set. cbn [fst snd].
      apply eqb_neq in Pk. rewrite Pk.
      destruct (JsObject.has k o) eqn:Hh; [|reflexivity].
      apply has_In in Hh. simpl in N. apply NoDup_remove_2 in N.
      exfalso. apply N, in_or_app. now left. }
    rewrite F, IH; [rewrite <- app_assoc; reflexivity | | exact Pes].
    rewrite map_app. simpl. rewrite <- app_assoc. exact N.
Qed.

Lemma insertIndex_length e l :
  length (JsObject.insertIndex e l) = S (length l).
Proof.
  induction l as [|e' l IH]; simpl; [reflexivity|].
  destruct (fst e <=? fst e')%N; simpl; congruence.
Qed.

(** [Object.keys] lists every property once. *)
Lemma keys_length (V : Type) (o : JsObject.t V) :
  length (JsObject.keys o) = length o.
Proof.
  unfold JsObject.keys. rewrite length_app, length_map.
  rewrite <- (length_map fst o). induction (map fst o) as [|k ks IH]; simpl.
  - reflexivity.
  - unfold JsObject.isIndex at 1.
    destruct (JsObject.toIndex k); simpl; rewrite ?insertIndex_length; lia.
Qed.

(** X7. A block written from fields parses back to them: for fields as the
    parser stores them, with distinct keys, the block with one line
    [key:value] for each field gives one map with exactly these fields,
    created in this order, and no warning. *)
Theorem block_round_trip
  (entries : list (JsString.t * JsString.t)) (console : Console) :
  entries <> [] ->
  Forall storedField entries ->
  NoDup (map fst entries) ->
  splitEventPart_transform console (encodeBlock entries) = (console, [entries]).
Proof.
  intros Hne Hs Hd.
  assert (L : split DEFAULT_PART_SEPARATOR (encodeBlock entries)
              = map encodeField entries).
  { apply split_join_lines.
    - destruct entries; [congruence | discriminate].
    - apply Forall_forall. intros line H. apply in_map_iff in H as [[k v] [<- H]].
      rewrite Forall_forall in Hs. destruct (Hs _ H) as [_ [_ [C [_ [_ G]]]]].
      unfold encodeField. cbn [fst snd] in *. intros X.
      apply in_app_or in X as [X|X]; [tauto|].
      apply in_app_or in X as [[X|[]]|X]; [discriminate | tauto]. }
  assert (F : fieldsOf (map encodeField entries) = entries).
  { clear -Hs. induction Hs as [|e es He _ IH]; [reflexivity|].
    simpl. rewrite (fieldOf_encodeField He). simpl. f_equal. exact IH. }
  assert (W : warningsOf (map encodeField entries) = []).
  { clear -Hs. induction Hs as [|e es He _ IH]; [reflexivity|].
    simpl. unfold includes.
    pose proof (fieldOf_encodeField He) as X. unfold fieldOf in X.
    destruct (indexOf DEFAULT_KV_SEPARATOR (encodeField e)); [|discriminate].
    exact IH. }
  rewrite splitEventPart_transform_eq, L, W, addField_setField, F, app_nil_r.
  rewrite setField_fresh.
  - unfold emitted. rewrite keys_length. simpl.
    destruct entries; [congruence | reflexivity].
  - exact Hd.
  - eapply Forall_impl; [|exact Hs]. intros e [_ [_ [_ [P _]]]]. exact P.
Qed.

Lemma block_round_trip_witness :
  splitEventPart_transform []
    (js ("event:update" ++ nl ++ "data:https://a.com:8080/x" ++ nl ++ "id:y"))
  = ([], [[(js "event", js "update"); (js "data", js "https://a.com:8080/x");
           (js "id", js "y")]]).
Proof.
  apply (@block_round_trip
           [(js "event", js "update"); (js "data", js "https://a.com:8080/x");
            (js "id", js "y")] []).
  - discriminate.
  - repeat constructor; simpl; try discriminate;
      intros H; repeat (destruct H as [H|H]; [discriminate|]); exact H.
  - repeat constructor; simpl; intros H;
      repeat (destruct H as [H|H]; [discriminate|]); exact H.
Defined.

(** ** More on the consumers *)

Section MoreConsumerFacts.

Variables (Output Err : Type).
Variable truthy : Output -> bool.
Variable lockedError : Err.

Section Pushing.

Variable U : Type.
Variable callback : Output -> U -> U * Reaction Err.
Variable onComplete : option (U -> U * option Err).

Implicit Types (s : Subscription Output Err U).

(** X8. Lock discipline of [subscribe]: on a stream that was not locked, the
    stream is locked exactly while the async function waits for a read;
    however the function ends, the lock has been released. *)
Theorem subscribe_lock_discipline
  (st : Stream Output Err) (u : U) (inputs : list Input) :
  locked st = false ->
  lockFollowsPump
    (run truthy callback onComplete inputs
       (subscribe lockedError onComplete st u)).
Proof.
  intros L.
  assert (H0 : lockFollowsPump (subscribe lockedError onComplete st u)).
  { unfold subscribe, lockFollowsPump. rewrite L.
    pump_cases; try discriminate; reflexivity. }
  generalize dependent (subscribe lockedError onComplete st u). clear L.
  induction inputs as [|i inputs IH]; intros s H; simpl; [exact H|].
  apply IH. clear IH. destruct s as [sub p [q l] v tr].
  unfold lockFollowsPump in *. cbn [pump stream locked] in H.
  destruct i; pump_cases; try reflexivity; try discriminate; assumption.
Qed.

Ltac plain_complete :=
  match goal with
  | P : plainComplete (Some ?f), E : ?f ?x = (_, Some _) |- _ =>
      specialize (P f x eq_refl); rewrite E in P; discriminate
  end.

Lemma step_completions_plain s i :
  plainComplete onComplete ->
  notCompleted s -> completions (trace s) <= 1 ->
  completions (trace (step truthy callback onComplete s i)) <= 1.
Proof.
  destruct s as [sub p st u tr]. unfold notCompleted. cbn [trace pump].
  intros P N L. destruct i; pump_cases; try plain_complete;
    rewrite ?completions_app; try rewrite N by reflexivity;
    unfold completions in *; simpl; lia.
Qed.

(** X9. When [onComplete] never throws, it is called at most once in the
    life of a subscription, whatever the source delivers, whatever the
    callback does and whenever the subscription is cancelled. *)
Theorem onComplete_at_most_once
  (st : Stream Output Err) (u : U) (inputs : list Input) :
  plainComplete onComplete ->
  completions
    (trace (run truthy callback onComplete inputs
              (subscribe lockedError onComplete st u))) <= 1.
Proof.
  intros P.
  assert (N0 := notCompleted_subscribe lockedError onComplete st u).
  assert (L0 : completions (trace (subscribe lockedError onComplete st u)) <= 1).
  { unfold subscribe. pump_cases; unfold completions; simpl; lia. }
  generalize dependent (subscribe lockedError onComplete st u).
  induction inputs as [|i inputs IH]; intros s N L; simpl; [exact L|].
  apply IH.
  - apply notCompleted_step, N.
  - apply step_completions_plain; assumption.
Qed.

(** X10. When [onComplete] throws at the end of the stream, the [catch]
    block logs what it threw and calls it a second time: it is called twice
    in the life of the subscription. *)
Theorem onComplete_throwing_called_twice
  (st : Stream Output Err) (u : U) (inputs more : list Input)
  (f : U -> U * option Err) (e : Err) (q : list (ReadResult Output Err)) :
  let s := run truthy callback onComplete inputs
             (subscribe lockedError onComplete st u) in
  onComplete = Some f ->
  pump s = Awaiting ->
  queue (stream s) = ReadDone :: q ->
  snd (f (user s)) = Some e ->
  let s' := settle truthy callback onComplete s in
  trace s' = trace s ++ [Complete; ReleaseLock; LogError e; Complete]
  /\ completions (trace (run truthy callback onComplete more s')) = 2.
Proof.
  intros s Hf Hp Hq He s'.
  assert (N : notCompleted s) by apply notCompleted_run, notCompleted_subscribe.
  specialize (N Hp). clearbody s.
  assert (E : trace s' = trace s ++ [Complete; ReleaseLock; LogError e; Complete]
              /\ pump s' <> Awaiting).
  { subst s'. destruct s as [sub p str v tr]. cbn [pump stream trace user] in *.
    subst p. unfold settle. cbn [pump stream]. rewrite Hq. subst onComplete.
    unfold_pump. destruct (f v) as [v' thrown] eqn:Ef. cbn [snd] in He.
    subst thrown. unfold_pump. destruct (f v') as [v'' [e'|]];
      cbn [trace pump]; rewrite <- !app_assoc; split;
        try reflexivity; discriminate. }
  destruct E as [Et Hend]. split; [exact Et|].
  destruct (run_ended truthy callback onComplete more _ Hend) as [_ [_ [_ [_ R]]]].
  rewrite R, Et, completions_app, N. reflexivity.
Qed.

(** X11. When the callback throws, the value counts as delivered, the lock
    is released, the error is logged and [onComplete] is called; that is its
    only call, and nothing is delivered afterwards. *)
Theorem callback_error_completes
  (st : Stream Output Err) (u : U) (inputs more : list Input)
  (value : Output) (e : Err) (q : list (ReadResult Output Err)) :
  let s := run truthy callback onComplete inputs
             (subscribe lockedError onComplete st u) in
  pump s = Awaiting ->
  subscribing s = true ->
  queue (stream s) = ReadValue value :: q ->
  truthy value = true ->
  throws (snd (callback value (user s))) = Some e ->
  let s'' := run truthy callback onComplete more
               (settle truthy callback onComplete s) in
  delivered (trace s'') = delivered (trace s) ++ [value]
  /\ completions (trace s'') = match onComplete with
                               | Some _ => 1
                               | None => 0
                               end
  /\ pump s'' <> Awaiting
  /\ locked (stream s'') = false
  /\ In (LogError e) (trace s'').
Proof.
  intros s Hp Hs Hq Ht He s''.
  assert (N : notCompleted s) by apply notCompleted_run, notCompleted_subscribe.
  specialize (N Hp). clearbody s.
  set (s' := settle truthy callback onComplete s) in *.
  assert (E : delivered (trace s') = delivered (trace s) ++ [value]
              /\ completions (trace s') = match onComplete with
                                          | Some _ => 1
                                          | None => 0
                                          end
              /\ pump s' <> Awaiting
              /\ locked (stream s') = false
              /\ In (LogError e) (trace s')).
  { subst s' s''. destruct s as [sub p str v tr]. cbn [pump stream trace user subscribing] in *.
    subst p sub. unfold settle. cbn [pump stream subscribing]. rewrite Hq, Ht.
    cbn [andb]. unfold_pump.
    destruct (callback value v) as [v' [c t]]. cbn [snd throws] in He. subst t.
    cbn [cancels throws].
    pump_cases; cbn [trace pump stream locked];
      rewrite ?delivered_app, ?completions_app, ?N; simpl;
      rewrite ?app_nil_r, ?in_app_iff; simpl;
      repeat split; try discriminate; try reflexivity; auto 10. }
  destruct E as [E1 [E2 [E3 [E4 E5]]]].
  destruct (run_ended truthy callback onComplete more _ E3)
    as [R1 [_ [R3 [R4 R5]]]].
  fold s'' in R1, R3, R4, R5.
  assert (T : exists evs, trace s'' = trace s' ++ evs).
  { subst s''. clear. generalize s'. induction more as [|i more IH]; intros x.
    - exists []. simpl. rewrite app_nil_r. reflexivity.
    - simpl. destruct (IH (step truthy callback onComplete x i)) as [evs ->].
      assert (X : exists ev1, trace (step truthy callback onComplete x i)
                              = trace x ++ ev1).
      { destruct x as [sub p str v tr]. destruct i.
        - unfold step, settle. cbn [pump stream trace].
          destruct p; try (exists []; rewrite app_nil_r; reflexivity).
          destruct (queue str) as [|r q0];
            [exists []; rewrite app_nil_r; reflexivity|].
          pump_cases; cbn [trace]; rewrite <- ?app_assoc; eexists; reflexivity.
        - unfold_pump. eexists. reflexivity. }
      destruct X as [ev1 ->]. rewrite <- app_assoc. eexists. reflexivity. }
  destruct T as [evs T].
  repeat split; try congruence.
  rewrite T. apply in_or_app. now left.
Qed.

(** The loop takes the values at the head of the queue one by one. *)
Lemma drain_values (vs : list Output) tail l (u : U) tr n :
  plainCallback callback ->
  exists tr',
    run truthy callback onComplete (repeat Settle (length vs + n))
      {| subscribing := true; pump := Awaiting;
         stream := {| queue := map ReadValue vs ++ tail; locked := l |};
         user := u; trace := tr |}
    = run truthy callback onComplete (repeat Settle n)
        {| subscribing := true; pump := Awaiting;
           stream := {| queue := tail; locked := l |};
           user := received callback (filter truthy vs) u; trace := tr' |}
    /\ delivered tr' = delivered tr ++ filter truthy vs
    /\ completions tr' = completions tr.
Proof.
  intros PC. revert u tr. induction vs as [|v vs IH]; intros u tr.
  - exists tr. simpl. rewrite app_nil_r. auto.
  - cbn [length Nat.add]. rewrite run_repeat_Settle.
    unfold settle at 1. cbn [pump stream queue map app].
    destruct (truthy v) eqn:T; cbn [andb subscribing filter]; rewrite ?T.
    + unfold_pump. pose proof (PC v u) as Pv.
      destruct (callback v u) as [u' r] eqn:Ec. cbn [snd] in Pv. subst r.
      cbv [cancels throws]. unfold_pump.
      destruct (IH u' ((tr ++ [Value v]) ++ [Read])) as [tr' [E [D C]]].
      exists tr'. split; [|split].
      * rewrite E. unfold received. simpl. rewrite Ec. reflexivity.
      * rewrite D, !delivered_app. simpl. rewrite app_nil_r, <- app_assoc.
        reflexivity.
      * rewrite C, !completions_app. unfold completions. simpl. lia.
    + unfold_pump.
      destruct (IH u (tr ++ [Read])) as [tr' [E [D C]]].
      exists tr'. split; [exact E | split].
      * rewrite D, delivered_app. simpl. rewrite app_nil_r. reflexivity.
      * rewrite C, completions_app. unfold completions. simpl. lia.
Qed.

(** X12. On a finite source, with a callback that returns and an
    [onComplete] that returns, [subscribe] calls the callback once for each
    truthy value, in the order of the source, then calls [onComplete] once
    and ends with the lock released. *)
Theorem subscribe_delivers_in_order (vs : list Output) (u : U) (n : nat) :
  plainCallback callback -> plainComplete onComplete ->
  length vs < n ->
  let s := run truthy callback onComplete (repeat Settle n)
             (subscribe lockedError onComplete (finiteSource Err vs) u) in
  delivered (trace s) = filter truthy vs
  /\ completions (trace s) = match onComplete with
                             | Some _ => 1
                             | None => 0
                             end
  /\ pump s = Returned
  /\ locked (stream s) = false
  /\ user s = match onComplete with
              | Some f => fst (f (received callback (filter truthy vs) u))
              | None => received callback (filter truthy vs) u
              end.
Proof.
  intros PC PO Hn s. subst s.
  replace n with (length vs + S (n - length vs - 1)) by lia.
  unfold subscribe, finiteSource. cbn [locked].
  unfold loop, withPump, withStream, withLock, emit.
  cbn [subscribing pump stream user trace queue locked].
  destruct (drain_values vs [ReadDone] true u ([] ++ [Read])
              (S (n - length vs - 1)) PC)
    as [tr' [E [D C]]].
  rewrite E, run_repeat_Settle. clear E.
  set (u' := received callback (filter truthy vs) u).
  match goal with
  | |- context [run _ _ _ _ ?x] =>
      assert (X : delivered (trace x) = filter truthy vs
                  /\ completions (trace x) = match onComplete with
                                             | Some _ => 1
                                             | None => 0
                                             end
                  /\ pump x = Returned
                  /\ locked (stream x) = false
                  /\ user x = match onComplete with
                              | Some f => fst (f u')
                              | None => u'
                              end);
      [|assert (Hend : pump x <> Awaiting)
          by (destruct X as [_ [_ [-> _]]]; discriminate);
        destruct (run_ended truthy callback onComplete
                    (repeat Settle (n - length vs - 1)) x Hend)
          as [R1 [R2 [R3 [R4 R5]]]];
        destruct X as [X1 [X2 [X3 [X4 X5]]]];
        repeat split; congruence]
  end.
  unfold settle. cbn [pump stream queue]. unfold_pump.
  destruct onComplete as [f|] eqn:Eo.
  - pose proof (PO f u' eq_refl) as Pf. destruct (f u') as [u'' thrown].
    cbn [snd] in Pf. subst thrown. cbn [trace pump stream locked user fst].
    rewrite !delivered_app, !completions_app, D, C. simpl.
    rewrite !app_nil_r. auto.
  - cbn [trace pump stream locked user].
    rewrite !delivered_app, !completions_app, D, C. simpl.
    rewrite !app_nil_r. auto.
Qed.

End Pushing.

End MoreConsumerFacts.

Lemma subscribe_delivers_in_order_witness :
  let s := run ToBoolean recordValue noteComplete (repeat Settle 4)
             (subscribe typeError noteComplete
                (finiteSource JsValue [JsInteger 1; JsStr []; JsStr (js "x")])
                []) in
  delivered (trace s) = [JsInteger 1; JsStr (js "x")]
  /\ completions (trace s) = 1
  /\ user s = [JsInteger 1; JsStr (js "x")].
Proof.
  destruct (@subscribe_delivers_in_order JsValue JsValue ToBoolean typeError
              (list JsValue) recordValue noteComplete
              [JsInteger 1; JsStr []; JsStr (js "x")] [] 4)
    as [H1 [H2 [_ [_ H5]]]].
  - intros value u. reflexivity.
  - intros f u [= <-]. reflexivity.
  - simpl. lia.
  - split; [exact H1 | split; [exact H2 | exact H5]].
Defined.

(** ** More on [collectAll] and on the iterator *)

Section CollectFacts.

Variables (Output Err : Type).
Variable truthy : Output -> bool.
Variable lockedError : Err.
Variable awaitValue : Output -> Awaited Output Err.

Lemma pushValue_plain : plainCallback (@pushValue Output Err).
Proof. intros value c. reflexivity. Qed.

Lemma received_pushValue (vs : list Output) (c : Collector Output) :
  received (@pushValue Output Err) vs c
  = {| values := values c ++ vs; resolved := resolved c |}.
Proof.
  revert c. induction vs as [|v vs IH]; intros [acc r]; simpl.
  - rewrite app_nil_r. reflexivity.
  - unfold received in *. simpl. rewrite IH. simpl.
    rewrite <- app_assoc. reflexivity.
Qed.

(** X13. A source that fails after some values, none of them a thenable:
    [collectAll] resolves, with the truthy values read before the failure,
    and the failure is not visible in its result; a [for await] loop
    receives the same values and then throws the error. *)
Theorem read_error_push_and_pull
  (vs : list Output) (e : Err) (rest : list (ReadResult Output Err))
  (n m : nat) :
  plainValues awaitValue vs ->
  length vs < n -> length vs < m ->
  let st := {| queue := map ReadValue vs ++ ReadError e :: rest;
               locked := false |} in
  collected truthy lockedError n st = Some (filter truthy vs)
  /\ forAwait truthy lockedError awaitValue m (asyncIterator st)
     = (filter truthy vs, Threw e).
Proof.
  intros P Hn Hm st. subst st. split.
  - replace n with (length vs + S (n - length vs - 1)) by lia.
    unfold collected, collectAll, subscribe. cbn [locked].
    unfold loop, withPump, withStream, withLock, emit.
    cbn [subscribing pump stream user trace queue locked].
    destruct (drain_values truthy (Some (@resolveValues Output Err)) vs
                (ReadError e :: rest) true
                {| values := []; resolved := false |} ([] ++ [Read])
                (S (n - length vs - 1)) pushValue_plain)
      as [tr' [E _]].
    rewrite E, run_repeat_Settle, received_pushValue. clear E.
    match goal with
    | |- promise (user (run _ _ _ _ ?x)) = _ =>
        assert (Hend : pump x <> Awaiting) by (simpl; discriminate);
        destruct (run_ended truthy (@pushValue Output Err)
                    (Some (@resolveValues Output Err))
                    (repeat Settle (n - length vs - 1)) x Hend)
          as [_ [-> _]]
    end.
    reflexivity.
  - unfold asyncIterator.
    apply forAwait_prefix; try assumption; try discriminate; reflexivity.
Qed.

Lemma stalled_unresolved (vs : list Output) l acc tr n :
  resolved
    (user
       (run truthy (@pushValue Output Err) (Some (@resolveValues Output Err))
          (repeat Settle n)
          {| subscribing := true; pump := Awaiting;
             stream := {| queue := map ReadValue vs; locked := l |};
             user := {| values := acc; resolved := false |};
             trace := tr |}))
  = false.
Proof.
  revert acc tr n. induction vs as [|v vs IH]; intros acc tr n.
  - induction n as [|n IHn]; [reflexivity|].
    rewrite run_repeat_Settle. exact IHn.
  - destruct n as [|n]; [reflexivity|]. rewrite run_repeat_Settle.
    unfold settle at 1. cbn [pump stream queue map].
    destruct (truthy v); cbn [andb subscribing];
      unfold loop, withPump, withStream, withUser, withQueue, emit;
      cbn [subscribing pump stream user trace queue locked pushValue
           fst snd cancels throws];
      apply IH.
Qed.

(** X14. A source that delivers values and then neither ends nor fails: the
    promise of [collectAll] is never resolved, however many reads settle;
    when none of the values is a thenable, a [for await] loop receives the
    truthy values and then waits. *)
Theorem stalled_source_never_resolves (vs : list Output) (n : nat) :
  let st := {| queue := map (@ReadValue Output Err) vs; locked := false |} in
  collected truthy lockedError n st = None
  /\ (plainValues awaitValue vs ->
      forAwait truthy lockedError awaitValue (S (length vs)) (asyncIterator st)
      = (filter truthy vs, Waiting)).
Proof.
  cbv zeta. split.
  - unfold collected, collectAll, subscribe. cbn [locked].
    unfold loop, withPump, withStream, withLock, emit, promise.
    cbn [subscribing pump stream user trace queue locked].
    rewrite stalled_unresolved. reflexivity.
  - intros P. unfold asyncIterator. rewrite <- (app_nil_r (map ReadValue vs)).
    apply forAwait_prefix; try assumption; try discriminate; try reflexivity.
    lia.
Qed.

(** X15. On a stream that is already locked, [getReader()] throws: the
    promise of [collectAll] is resolved at once with the empty array, the
    error is only logged, and no read is made; the iterator rejects its
    first [next()] with the error and is finished. *)
Theorem locked_stream_consumers (st : Stream Output Err) (n : nat) :
  locked st = true ->
  collected truthy lockedError n st = Some []
  /\ trace (run truthy (@pushValue Output Err)
              (Some (@resolveValues Output Err)) (repeat Settle n)
              (collectAll lockedError st))
     = [LogError lockedError; Complete]
  /\ next truthy lockedError awaitValue (asyncIterator st)
     = (Rejected lockedError, {| generator := GenCompleted; source := st |})
  /\ forAwait truthy lockedError awaitValue (S n) (asyncIterator st)
     = ([], Threw lockedError).
Proof.
  intros L.
  assert (N : next truthy lockedError awaitValue (asyncIterator st)
              = (Rejected lockedError,
                 {| generator := GenCompleted; source := st |})).
  { unfold next, asyncIterator. cbn [generator source]. rewrite L. reflexivity. }
  assert (R : forall k,
             run truthy (@pushValue Output Err)
               (Some (@resolveValues Output Err)) (repeat Settle k)
               (collectAll lockedError st)
             = collectAll lockedError st).
  { intros k. induction k as [|k IH]; [reflexivity|].
    rewrite run_repeat_Settle. rewrite <- IH at 2. f_equal.
    unfold collectAll, subscribe. rewrite L. reflexivity. }
  split; [|split; [|split]].
  - unfold collected. rewrite R. unfold collectAll, subscribe. rewrite L.
    reflexivity.
  - rewrite R. unfold collectAll, subscribe. rewrite L. reflexivity.
  - exact N.
  - cbn [forAwait]. rewrite N. reflexivity.
Qed.

(** The generator keeps the lock while it is suspended at [yield] and at no
    other time. *)
Lemma next_lockFollowsGenerator (it : Iterator Output Err) :
  lockFollowsGenerator it ->
  lockFollowsGenerator (snd (next truthy lockedError awaitValue it)).
Proof.
  destruct it as [g [q l]]. unfold lockFollowsGenerator, next, resume.
  cbn [generator source locked]. intros H.
  destruct g; [subst l | subst l | exact H];
    cbn [locked queue withLock withQueue];
    destruct (iterLoop truthy awaitValue q) as [[v| |e|] q']; reflexivity.
Qed.

(** X16. Lock discipline of the iterator: on a stream that was not locked,
    after any number of [next()] calls the stream is locked exactly while
    the generator is suspended at [yield]; once a call has ended the
    sequence or has been rejected, the lock is released and every later
    call ends the sequence at once without reading. *)
Theorem iterator_lock_discipline (st : Stream Output Err) (k : nat) :
  locked st = false ->
  let it := advance truthy lockedError awaitValue k (asyncIterator st) in
  lockFollowsGenerator it
  /\ forall r it',
       next truthy lockedError awaitValue it = (r, it') ->
       r = Completed \/ (exists e, r = Rejected e) ->
       locked (source it') = false
       /\ next truthy lockedError awaitValue it' = (Completed, it').
Proof.
  intros L it.
  assert (I : lockFollowsGenerator it).
  { subst it. assert (I0 : lockFollowsGenerator (asyncIterator st)) by exact L.
    generalize dependent (asyncIterator st). clear L.
    induction k as [|k IH]; intros x Hx; [exact Hx|].
    simpl. apply IH, next_lockFollowsGenerator, Hx. }
  split; [exact I|]. clearbody it. intros r it' N Hr.
  assert (G : generator it' = GenCompleted).
  { destruct it as [g [q l]]. unfold next, resume in N.
    unfold lockFollowsGenerator in I.
    cbn [generator source locked queue] in *.
    destruct g; [subst l | subst l |];
      cbn [queue locked withLock withQueue] in N;
      try destruct (iterLoop truthy awaitValue q) as [[v| |e|] q'];
      inversion N; subst; try reflexivity;
      destruct Hr as [Hr|[e' Hr]]; discriminate. }
  pose proof (next_lockFollowsGenerator I) as I'. rewrite N in I'.
  unfold lockFollowsGenerator in I'. cbn [snd] in I'. rewrite G in I'.
  split; [exact I'|]. unfold next. rewrite G. reflexivity.
Qed.

End CollectFacts.

Lemma read_error_push_and_pull_witness :
  let st := {| queue := [ReadValue (JsInteger 1); ReadValue JsNull;
                         ReadValue (JsInteger 2);
                         ReadError (JsStr (js "reset"));
                         ReadValue (JsInteger 3)];
               locked := false |} in
  collected ToBoolean typeError 4 st = Some [JsInteger 1; JsInteger 2]
  /\ forAwait ToBoolean typeError awaitJs 4 (asyncIterator st)
     = ([JsInteger 1; JsInteger 2], Threw (JsStr (js "reset"))).
Proof.
  exact (@read_error_push_and_pull JsValue JsValue ToBoolean typeError awaitJs
           [JsInteger 1; JsNull; JsInteger 2] (JsStr (js "reset"))
           [ReadValue (JsInteger 3)] 4 4
           ltac:(repeat constructor) ltac:(simpl; lia) ltac:(simpl; lia)).
Defined.

Lemma stalled_source_never_resolves_witness :
  let st := {| queue := [ReadValue (JsInteger 1); ReadValue JsNull];
               locked := false |} in
  collected ToBoolean typeError 5 st = None
  /\ forAwait ToBoolean typeError awaitJs 3 (asyncIterator st)
     = ([JsInteger 1], Waiting).
Proof.
  destruct (@stalled_source_never_resolves JsValue JsValue ToBoolean typeError
              awaitJs [JsInteger 1; JsNull] 5) as [H1 H2].
  split; [exact H1 | exact (H2 ltac:(repeat constructor))].
Defined.

Lemma locked_stream_consumers_witness :
  let st := {| queue := [ReadValue (JsInteger 1); ReadDone]; locked := true |} in
  collected ToBoolean typeError 3 st = Some []
  /\ forAwait ToBoolean typeError awaitJs 3 (asyncIterator st) = ([], Threw typeError).
Proof.
  destruct (@locked_stream_consumers JsValue JsValue ToBoolean typeError awaitJs
              {| queue := [ReadValue (JsInteger 1); ReadDone]; locked := true |}
              2 eq_refl) as [H1 [_ [_ H4]]].
  split; [|exact H4].
  exact (proj1 (@locked_stream_consumers JsValue JsValue ToBoolean typeError awaitJs
                  {| queue := [ReadValue (JsInteger 1); ReadDone];
                     locked := true |} 3 eq_refl)).
Defined.

Lemma iterator_lock_discipline_witness :
  let st := {| queue := [ReadValue (JsInteger 1); ReadError JsNull;
                         ReadValue (JsInteger 2)];
               locked := false |} in
  let it := advance ToBoolean typeError awaitJs 1 (asyncIterator st) in
  locked (source it) = true
  /\ fst (next ToBoolean typeError awaitJs it) = Rejected JsNull
  /\ locked (source (snd (next ToBoolean typeError awaitJs it))) = false
  /\ fst (next ToBoolean typeError awaitJs (snd (next ToBoolean typeError awaitJs it)))
     = Completed.
Proof.
  destruct (@iterator_lock_discipline JsValue JsValue ToBoolean typeError awaitJs
              {| queue := [ReadValue (JsInteger 1); ReadError JsNull;
                           ReadValue (JsInteger 2)];
                 locked := false |} 1 eq_refl) as [H1 H2].
  split; [exact H1|]. split; [reflexivity|].
  destruct (H2 _ _ eq_refl (or_intror (ex_intro _ JsNull eq_refl))) as [A B].
  split; [exact A|]. apply (f_equal fst) in B. exact B.
Defined.

(** ** The whole parser *)

Lemma filter_ToBoolean_fields (maps : list SSEOutput) :
  filter ToBoolean (map JsFields maps) = map JsFields maps.
Proof. induction maps as [|o maps IH]; simpl; congruence. Qed.

(** X17. With the default stages nothing the parser emits is dropped by
    the consumers: every field map is an object, hence truthy, and both
    [collectAll] and a [for await] loop give all the maps of the text, in
    order. *)
Theorem default_pipeline_collects_all (chunks : list JsString.t) (n : nat) :
  length (parseStream chunks) < n ->
  exists st,
    SseStreamParser (Some chunks) None = inr st
    /\ collected ToBoolean typeError n st
       = Some (map JsFields (parseStream chunks))
    /\ forAwait ToBoolean typeError awaitJs n (asyncIterator st)
       = (map JsFields (parseStream chunks), Finished).
Proof.
  intros Hn. eexists. split; [reflexivity|].
  assert (L : length (map JsFields (parseStream chunks)) < n)
    by (rewrite length_map; exact Hn).
  split.
  - unfold collected, collectAll, subscribe, finiteSource. cbn [locked].
    unfold loop, withPump, withStream, withLock, emit.
    cbn [subscribing pump stream user trace queue locked].
    rewrite collected_finite by exact L.
    rewrite filter_ToBoolean_fields. reflexivity.
  - unfold asyncIterator, finiteSource.
    rewrite forAwait_finite
      by (try exact L; try discriminate; try reflexivity;
          clear; induction (parseStream chunks); constructor; auto).
    rewrite filter_ToBoolean_fields. reflexivity.
Qed.

Lemma default_pipeline_collects_all_witness :
  exists st,
    SseStreamParser
      (Some [js ("event: message" ++ nl ++ "da");
             js ("ta: hi" ++ nl ++ nl ++ "event: update" ++ nl ++ "data: ok"
                 ++ nl ++ nl)]) None = inr st
    /\ collected ToBoolean typeError 3 st
       = Some [JsFields [(js "event", js "message"); (js "data", js "hi")];
               JsFields [(js "event", js "update"); (js "data", js "ok")]].
Proof.
  destruct (@default_pipeline_collects_all
              [js ("event: message" ++ nl ++ "da");
               js ("ta: hi" ++ nl ++ nl ++ "event: update" ++ nl ++ "data: ok"
                   ++ nl ++ nl)] 3 ltac:(vm_compute; lia))
    as [st [H1 [H2 _]]].
  exists st. split; [exact H1|]. rewrite H2. reflexivity.
Defined.

Lemma subscribe_lock_discipline_witness :
  let s := run ToBoolean recordValue noteComplete [Settle; Cancel; Settle]
             (subscribe typeError noteComplete
                {| queue := [ReadValue (JsInteger 1); ReadValue (JsInteger 2);
                             ReadDone];
                   locked := false |} []) in
  pump s = Returned /\ locked (stream s) = false.
Proof.
  pose proof (@subscribe_lock_discipline JsValue JsValue ToBoolean typeError
                (list JsValue) recordValue noteComplete
                {| queue := [ReadValue (JsInteger 1); ReadValue (JsInteger 2);
                             ReadDone];
                   locked := false |} [] [Settle; Cancel; Settle]
                ltac:(vm_compute; reflexivity)) as H.
  vm_compute in H. vm_compute. split; [reflexivity | exact H].
Defined.

Lemma onComplete_at_most_once_witness :
  completions
    (trace (run ToBoolean throwingCallback noteComplete
              [Settle; Settle; Cancel; Settle]
              (subscribe typeError noteComplete
                 {| queue := [ReadValue (JsInteger 1); ReadDone];
                    locked := false |} []))) <= 1.
Proof.
  apply (@onComplete_at_most_once JsValue JsValue ToBoolean typeError
           (list JsValue) throwingCallback noteComplete).
  intros f u [= <-]. reflexivity.
Defined.

Lemma onComplete_throwing_called_twice_witness :
  let s' := run ToBoolean recordValue (Some throwingComplete)
              [Settle; Settle; Settle]
              (subscribe typeError (Some throwingComplete)
                 {| queue := [ReadValue (JsInteger 1); ReadDone];
                    locked := false |} []) in
  completions (trace s') = 2
  /\ trace s' = [Read; Value (JsInteger 1); Read; Complete; ReleaseLock;
                 LogError (JsStr (js "oops")); Complete].
Proof.
  pose proof (@onComplete_throwing_called_twice JsValue JsValue ToBoolean
                typeError (list JsValue) recordValue (Some throwingComplete)
                {| queue := [ReadValue (JsInteger 1); ReadDone];
                   locked := false |} [] [Settle] [Settle]
                throwingComplete (JsStr (js "oops")) []
                eq_refl ltac:(vm_compute; reflexivity)
                ltac:(vm_compute; reflexivity)
                ltac:(vm_compute; reflexivity)) as H.
  vm_compute in H. vm_compute. destruct H as [_ H].
  split; [exact H | reflexivity].
Defined.

Lemma callback_error_completes_witness :
  let s'' := run ToBoolean throwingCallback noteComplete [Settle; Settle]
               (subscribe typeError noteComplete
                  {| queue := [ReadValue (JsInteger 1); ReadValue (JsInteger 2);
                               ReadDone];
                     locked := false |} []) in
  delivered (trace s'') = [JsInteger 1]
  /\ completions (trace s'') = 1
  /\ locked (stream s'') = false.
Proof.
  pose proof (@callback_error_completes JsValue JsValue ToBoolean typeError
                (list JsValue) throwingCallback noteComplete
                {| queue := [ReadValue (JsInteger 1); ReadValue (JsInteger 2);
                             ReadDone];
                   locked := false |} [] [] [Settle] (JsInteger 1)
                (JsStr (js "bad")) [ReadValue (JsInteger 2); ReadDone]
                ltac:(vm_compute; reflexivity) ltac:(vm_compute; reflexivity)
                ltac:(vm_compute; reflexivity) ltac:(vm_compute; reflexivity)
                ltac:(vm_compute; reflexivity)) as H.
  vm_compute in H. vm_compute. destruct H as [H1 [H2 [_ [H4 _]]]].
  split; [exact H1 | split; [exact H2 | exact H4]].
Defined.
